(** * Dirwatcher: the polling loop of [dirwatcher.py]

    A shallow embedding of the watcher's core: the line scanner
    ([search_for_magic]), the extension filter ([filter_extension]), the
    directory diff ([detect_removed_files], [detect_added_files]), the
    configuration check ([alert_user]) and the polling loop
    ([watch_directory]) with its exception handlers and the signal handler.

    The two module-level dictionaries and the exit flag are fields of an
    explicit [state]; logging calls and [time.sleep] append to a trace;
    exceptions are values of a small exception monad that keeps the state
    reached when the exception was raised (Python does not roll back the
    dictionaries). *)

From Stdlib Require Import List String Ascii Bool Arith ZArith Lia.
Import ListNotations.
Open Scope string_scope.
Open Scope list_scope.

(** ** Strings *)

(** Python's [sub in s] on [str]: [sub] occurs in [s] as a contiguous
    substring. *)
Fixpoint is_substring (sub s : string) : bool :=
  if String.prefix sub s then true
  else match s with
       | EmptyString => false
       | String _ s' => is_substring sub s'
       end.

(** [magic_string in contents[index]]: a [None] left operand raises
    [TypeError], written here as [None]. *)
Definition py_in (magic_string : option string) (line : string) : option bool :=
  match magic_string with
  | Some m => Some (is_substring m line)
  | None => None
  end.

(** Truth value of an optional string: [None] and the empty string are
    false. *)
Definition truthy (x : option string) : bool :=
  match x with
  | None => false
  | Some EmptyString => false
  | Some (String _ _) => true
  end.

Definition has_char (c : ascii) (s : string) : bool :=
  existsb (Ascii.eqb c) (list_ascii_of_string s).

(** The part of a path after its last ["/"]. *)
Fixpoint basename (p : string) : string :=
  match p with
  | EmptyString => EmptyString
  | String c p' =>
      if has_char "/" p' then basename p'
      else if Ascii.eqb c "/" then p' else p
  end.

Fixpoint strip_leading_dots (s : string) : string :=
  match s with
  | String c s' => if Ascii.eqb c "." then strip_leading_dots s' else s
  | EmptyString => EmptyString
  end.

(** The suffix of [s] that starts at its last ["."], if it has one. *)
Fixpoint from_last_dot (s : string) : option string :=
  match s with
  | EmptyString => None
  | String c s' =>
      match from_last_dot s' with
      | Some e => Some e
      | None => if Ascii.eqb c "." then Some s else None
      end
  end.

(** [os.path.splitext(file)[1]] on POSIX paths: the extension starts at the
    last dot of the last path component, leading dots of that component not
    counting. *)
Definition splitext_ext (file : string) : string :=
  match from_last_dot (strip_leading_dots (basename file)) with
  | Some e => e
  | None => EmptyString
  end.

Definition mem_string (x : string) (l : list string) : bool :=
  existsb (String.eqb x) l.

(** ** Dictionaries

    A Python [dict] from file names to line numbers, kept in insertion
    order (the order in which [keys()] iterates). *)

Definition dict := list (string * nat).

Fixpoint dict_get (d : dict) (k : string) : option nat :=
  match d with
  | [] => None
  | (k', v) :: d' => if String.eqb k' k then Some v else dict_get d' k
  end.

(** [d.get(k, default)] *)
Definition dict_get_default (d : dict) (k : string) (default : nat) : nat :=
  match dict_get d k with
  | Some v => v
  | None => default
  end.

(** [d[k] = v]: an existing key keeps its position, a new key goes last. *)
Fixpoint dict_set (d : dict) (k : string) (v : nat) : dict :=
  match d with
  | [] => [(k, v)]
  | (k', v') :: d' =>
      if String.eqb k' k then (k, v) :: d' else (k', v') :: dict_set d' k v
  end.

Definition dict_keys (d : dict) : list string := map fst d.

Definition dict_mem (d : dict) (k : string) : bool := mem_string k (dict_keys d).

(** The entries left by [del d[k]] when [k] is a key of [d]. *)
Definition dict_del (d : dict) (k : string) : dict :=
  filter (fun kv => negb (String.eqb (fst kv) k)) d.

Definition dict_copy (d : dict) : dict := d.

(** ** Observable effects, exceptions, state *)

Inductive event : Type :=
| LogMatch (magic_string : option string) (filename : string) (index : nat)
| LogRemoved (file : string)
| LogAdded (file : string)
| LogDict (d : dict)
| LogInterrupted
| LogDirNotFound (path : option string)
| LogNoMagic
| LogBadExtension (extension : option string)
| LogNoDirectory
| LogUnexpected (e : string)
| Sleep (seconds : Z).

Inductive exn : Type :=
| KeyboardInterrupt
| FileNotFoundError
| MagicStringError
| ExtensionError
| NoDirectoryError
| OtherError (name : string).

(** The module's globals; [trace] collects the logger calls and the sleeps
    in program order, [stdout] the signal numbers printed by the signal
    handler. *)
Record state : Type := mkState {
  curr_dir_dict : dict;
  prev_dir_dict : dict;
  exit_program : bool;
  trace : list event;
  stdout : list Z
}.

Definition initial_state : state := mkState [] [] false [] [].

Definition set_curr (d : dict) (s : state) : state :=
  mkState d (prev_dir_dict s) (exit_program s) (trace s) (stdout s).

Definition set_prev (d : dict) (s : state) : state :=
  mkState (curr_dir_dict s) d (exit_program s) (trace s) (stdout s).

Definition emit (e : event) (s : state) : state :=
  mkState (curr_dir_dict s) (prev_dir_dict s) (exit_program s)
          (trace s ++ [e]) (stdout s).

(** [signal_handler]: prints the signal and sets the flag.  The handler is
    registered for SIGINT and SIGTERM only, so it is run with one of these
    two numbers, for which [signal.Signals(sig_num).name] is defined; for a
    number that names no signal that lookup would raise before the flag is
    set, a call the program never makes. *)
Definition signal_handler (sig_num : Z) (s : state) : state :=
  mkState (curr_dir_dict s) (prev_dir_dict s) true (trace s)
          (stdout s ++ [sig_num]).

(** The events appended to the trace between [s] and a later state [s']. *)
Definition new_events (s s' : state) : list event :=
  skipn (List.length (trace s)) (trace s').

Definition is_match_event (filename : string) (e : event) : bool :=
  match e with
  | LogMatch _ f _ => String.eqb f filename
  | _ => false
  end.

Definition is_removed_event (file : string) (e : event) : bool :=
  match e with
  | LogRemoved f => String.eqb f file
  | _ => false
  end.

Definition is_added_event (file : string) (e : event) : bool :=
  match e with
  | LogAdded f => String.eqb f file
  | _ => false
  end.

Definition is_error_event (e : event) : bool :=
  match e with
  | LogDirNotFound _ | LogNoMagic | LogBadExtension _ | LogNoDirectory
  | LogUnexpected _ => true
  | _ => false
  end.

Definition is_sleep_event (e : event) : bool :=
  match e with
  | Sleep _ => true
  | _ => false
  end.

Definition count_events (p : event -> bool) (l : list event) : nat :=
  List.length (filter p l).

(** ** The exception monad over [state] *)

Inductive result (A : Type) : Type :=
| Ret (a : A) (s : state)
| Raise (e : exn) (s : state).

Arguments Ret {A} a s.
Arguments Raise {A} e s.

Definition M (A : Type) : Type := state -> result A.

Definition ret {A} (a : A) : M A := fun s => Ret a s.

Definition raise {A} (e : exn) : M A := fun s => Raise e s.

Definition bind {A B} (m : M A) (k : A -> M B) : M B :=
  fun s =>
    match m s with
    | Ret a s' => k a s'
    | Raise e s' => Raise e s'
    end.

Definition modify (f : state -> state) : M unit := fun s => Ret tt (f s).

Definition gets {A} (f : state -> A) : M A := fun s => Ret (f s) s.

Definition final_state {A} (r : result A) : state :=
  match r with
  | Ret _ s => s
  | Raise _ s => s
  end.

Notation "x <- m ;; k" := (bind m (fun x => k))
  (at level 61, m at next level, right associativity).
Notation "m ;; k" := (bind m (fun _ => k))
  (at level 61, right associativity).

(** ** The environment of one loop iteration *)

Inductive io (A : Type) : Type :=
| IoOk (a : A)
| IoNotFound
| IoError (name : string).

Arguments IoOk {A} a.
Arguments IoNotFound {A}.
Arguments IoError {A} name.

(** Program points at which a signal may be delivered. *)
Inductive point : Type :=
| AtValidate
| AtListing
| AtFile (file : string)
| AtLine (file : string) (index : nat)
| AtDiff
| AtSleep.

(** What one iteration of the loop sees of the outside:
    - [watch_files_of path] is the value of the comprehension
      [[os.path.join(path, file) for file in os.listdir(path)
        if os.path.isfile(os.path.join(path, file))]], or the error that
      [os.listdir] raises ([IoNotFound] for [FileNotFoundError]);
    - [readlines file] is [open(file, 'r')] followed by [f.readlines()];
    - [signals p] is the number of a signal (SIGINT, SIGTERM) delivered when
      control is at [p]. *)
Record world : Type := mkWorld {
  watch_files_of : option string -> io (list string);
  readlines : string -> io (list string);
  signals : point -> option Z
}.

Definition lift_io {A} (r : io A) : M A :=
  match r with
  | IoOk a => ret a
  | IoNotFound => raise FileNotFoundError
  | IoError name => raise (OtherError name)
  end.

Definition deliver (w : world) (p : point) : M unit :=
  match signals w p with
  | Some sig_num => modify (signal_handler sig_num)
  | None => ret tt
  end.

(** [time.sleep(secs)]: a negative length raises [ValueError]; a length
    that does not fit the C timestamp (2^63 - 1 nanoseconds, so 9223372037
    seconds or more) raises [OverflowError]. *)
Definition time_sleep (secs : Z) : M unit :=
  if (secs <? 0)%Z then raise (OtherError "ValueError")
  else if (9223372037 <=? secs)%Z then raise (OtherError "OverflowError")
  else modify (emit (Sleep secs)).

(** ** The line scanner *)

(** The [for index in range(start_line, len(contents))] loop of
    [search_for_magic], over the indices still to visit. *)
Fixpoint scan_lines (w : world) (filename : string)
    (magic_string : option string) (contents : list string)
    (indices : list nat) : M unit :=
  match indices with
  | [] => ret tt
  | index :: rest =>
      deliver w (AtLine filename index) ;;
      modify (fun s => set_curr (dict_set (curr_dir_dict s) filename index) s) ;;
      match py_in magic_string (nth index contents "") with
      | None => raise (OtherError "TypeError")
      | Some true => modify (emit (LogMatch magic_string filename index))
      | Some false => scan_lines w filename magic_string contents rest
      end
  end.

Definition search_for_magic (w : world) (filename : string)
    (start_line : nat) (magic_string : option string) : M unit :=
  lines <- lift_io (readlines w filename) ;;
  let contents := "" :: lines in
  scan_lines w filename magic_string contents
    (seq start_line (List.length contents - start_line)).

(** ** Directory diff *)

Definition del_curr (file : string) : M unit :=
  fun s =>
    if dict_mem (curr_dir_dict s) file
    then Ret tt (set_curr (dict_del (curr_dir_dict s) file) s)
    else Raise (OtherError "KeyError") s.

Fixpoint detect_removed_loop (keys : list string) (files : list string)
    : M unit :=
  match keys with
  | [] => ret tt
  | file :: rest =>
      (if mem_string file files then ret tt
       else del_curr file ;; modify (emit (LogRemoved file))) ;;
      detect_removed_loop rest files
  end.

Definition detect_removed_files (prev_dict : dict) (files : list string)
    : M unit :=
  detect_removed_loop (dict_keys prev_dict) files.

Fixpoint detect_added_loop (keys : list string) (prev_dict : dict) : M unit :=
  match keys with
  | [] => ret tt
  | file :: rest =>
      (if mem_string file (dict_keys prev_dict) then ret tt
       else modify (emit (LogAdded file))) ;;
      detect_added_loop rest prev_dict
  end.

(** The second parameter ([files]) is never read by the function; the keys
    iterated are those of the global [curr_dir_dict]. *)
Definition detect_added_files (prev_dict : dict) (files : dict) : M unit :=
  keys <- gets (fun s => dict_keys (curr_dir_dict s)) ;;
  detect_added_loop keys prev_dict.

(** ** Extension filter *)

Definition passes_filter (extension : option string) (file : string) : bool :=
  match extension with
  | None => true
  | Some e => String.eqb (splitext_ext file) e
  end.

Fixpoint filter_extension (w : world) (magic_string : option string)
    (extension : option string) (watch_files : list string) : M unit :=
  match watch_files with
  | [] => ret tt
  | file :: rest =>
      deliver w (AtFile file) ;;
      (if passes_filter extension file then
         start_line <- gets (fun s => dict_get_default (curr_dir_dict s) file 0 + 1) ;;
         search_for_magic w file start_line magic_string
       else ret tt) ;;
      filter_extension w magic_string extension rest
  end.

(** ** Configuration check *)

Definition alert_user (path magic_string extension : option string) : M unit :=
  (if negb (truthy magic_string) then raise MagicStringError else ret tt) ;;
  match extension with
  | None => ret tt
  | Some EmptyString => raise (OtherError "IndexError")
  | Some (String c _) =>
      if negb (Ascii.eqb c ".") then raise ExtensionError else ret tt
  end ;;
  (if negb (truthy path) then raise NoDirectoryError else ret tt).

(** ** The polling loop *)

(** The body of the [try] block of [watch_directory]. *)
Definition cycle_body (w : world) (path magic_string extension : option string)
    (interval : Z) : M unit :=
  deliver w AtValidate ;;
  alert_user path magic_string extension ;;
  deliver w AtListing ;;
  watch_files <- lift_io (watch_files_of w path) ;;
  filter_extension w magic_string extension watch_files ;;
  deliver w AtDiff ;;
  prev <- gets prev_dir_dict ;;
  detect_removed_files prev watch_files ;;
  curr <- gets curr_dir_dict ;;
  detect_added_files prev curr ;;
  d <- gets curr_dir_dict ;;
  modify (emit (LogDict d)) ;;
  modify (fun s => set_prev (dict_copy (curr_dir_dict s)) s) ;;
  deliver w AtSleep ;;
  time_sleep interval.

Inductive loop_ctl : Type := Continue | Break.

(** The [except] clauses: what is logged, and whether the loop goes on. *)
Definition handle_exception (path extension : option string) (e : exn)
    (s : state) : state * loop_ctl :=
  match e with
  | KeyboardInterrupt => (emit LogInterrupted s, Continue)
  | FileNotFoundError => (emit (Sleep 5) (emit (LogDirNotFound path) s), Continue)
  | MagicStringError => (emit LogNoMagic s, Break)
  | ExtensionError => (emit (LogBadExtension extension) s, Break)
  | NoDirectoryError => (emit LogNoDirectory s, Break)
  | OtherError name => (emit (LogUnexpected name) s, Break)
  end.

(** One pass through the [while] body: the [try] block and its handlers. *)
Definition watch_iteration (w : world) (path magic_string extension : option string)
    (interval : Z) (s : state) : state * loop_ctl :=
  match cycle_body w path magic_string extension interval s with
  | Ret _ s' => (s', Continue)
  | Raise e s' => handle_exception path extension e s'
  end.

Inductive loop_status : Type := Exited | Running.

(** [watch_directory]: at most [fuel] passes through the loop; iteration
    number [k] runs in the environment [ws k].  [Running] means the loop
    condition held and the fuel was spent. *)
Fixpoint watch_directory (fuel : nat) (ws : nat -> world) (k : nat)
    (path magic_string extension : option string) (interval : Z)
    (s : state) : state * loop_status :=
  if exit_program s then (s, Exited)
  else
    match fuel with
    | O => (s, Running)
    | S fuel' =>
        match watch_iteration (ws k) path magic_string extension interval s with
        | (s', Continue) =>
            watch_directory fuel' ws (S k) path magic_string extension interval s'
        | (s', Break) => (s', Exited)
        end
    end.

(** ** Auxiliary notions used in the statements *)

(** The configurations that [alert_user] accepts. *)
Definition valid_config (path magic_string extension : option string) : Prop :=
  truthy magic_string = true /\
  truthy path = true /\
  (extension = None \/ exists e, extension = Some (String "." e)).

(** The state left by the delivery of the signal scheduled at [p], if any. *)
Definition deliver_state (w : world) (p : point) (s : state) : state :=
  match signals w p with
  | Some sig_num => signal_handler sig_num s
  | None => s
  end.

(** What Python guarantees of the two dictionaries (keys are unique), and
    what the loop maintains between them: every key of the previous-cycle
    snapshot is still a key of the current dictionary when a cycle starts. *)
Definition wf_state (s : state) : Prop :=
  NoDup (dict_keys (curr_dir_dict s)) /\
  NoDup (dict_keys (prev_dir_dict s)) /\
  incl (dict_keys (prev_dir_dict s)) (dict_keys (curr_dir_dict s)).

(** The dictionaries agree, as they do at start-up and after every cycle
    that ran to its end. *)
Definition in_sync (s : state) : Prop :=
  prev_dir_dict s = curr_dir_dict s.

(** The atomic state changes of the scanning phase: a signal sets the flag,
    the scanner advances the line number of a file of [P] past its current
    value, or a match is logged. *)
Inductive scan_step (P : string -> Prop) : state -> state -> Prop :=
| scan_signal (sig_num : Z) (s : state) :
    scan_step P s (signal_handler sig_num s)
| scan_set (f : string) (i : nat) (s : state) :
    P f -> dict_get_default (curr_dir_dict s) f 0 < i ->
    scan_step P s (set_curr (dict_set (curr_dir_dict s) f i) s)
| scan_match (m : option string) (f : string) (i : nat) (s : state) :
    P f -> scan_step P s (emit (LogMatch m f i) s).

Inductive scan_steps (P : string -> Prop) : state -> state -> Prop :=
| scan_refl (s : state) : scan_steps P s s
| scan_then (s1 s2 s3 : state) :
    scan_step P s1 s2 -> scan_steps P s2 s3 -> scan_steps P s1 s3.

Definition is_scan_event (P : string -> Prop) (e : event) : Prop :=
  exists m f i, e = LogMatch m f i /\ P f.

(** The keys that [detect_removed_files] deletes, in iteration order. *)
Definition removed_keys (keys files : list string) : list string :=
  filter (fun k => negb (mem_string k files)) keys.

(** The keys that [detect_added_files] reports, in iteration order. *)
Definition added_keys (keys : list string) (prev_dict : dict) : list string :=
  filter (fun k => negb (mem_string k (dict_keys prev_dict))) keys.

(** The state in which the scanning phase starts: the signals scheduled
    before it have been delivered. *)
Definition entry_state (w : world) (s : state) : state :=
  deliver_state w AtListing (deliver_state w AtValidate s).

(** ** Concrete environments used by the examples *)

Definition no_signals : point -> option Z := fun _ => None.

Definition dir_d : option string := Some "d".
Definition magic_foo : option string := Some "FOO".

(** A directory with the given files; every other path cannot be opened. *)
Definition world_of (files : list (string * list string)) : world :=
  mkWorld
    (fun _ => IoOk (map fst files))
    (fun f =>
       match find (fun kv => String.eqb (fst kv) f) files with
       | Some kv => IoOk (snd kv)
       | None => IoNotFound
       end)
    no_signals.

(** The watch directory does not exist. *)
Definition world_missing : world :=
  mkWorld (fun _ => IoNotFound) (fun _ => IoNotFound) no_signals.

(** [d/a.txt] is listed but has vanished when it is opened; [d/b.txt]
    holds the magic string on its first line. *)
Definition world_vanished : world :=
  mkWorld
    (fun _ => IoOk ["d/a.txt"; "d/b.txt"])
    (fun f => if String.eqb f "d/b.txt" then IoOk ["FOO"] else IoNotFound)
    no_signals.

(** [d/x.txt] can be read, [d/y.txt] has vanished when it is opened. *)
Definition world_race : world :=
  mkWorld
    (fun _ => IoOk ["d/x.txt"; "d/y.txt"])
    (fun f => if String.eqb f "d/x.txt" then IoOk ["hello"] else IoNotFound)
    no_signals.

(** [d/x.txt] can be read, [d/y.txt] exists but may not be opened
    ([PermissionError]). *)
Definition world_denied : world :=
  mkWorld
    (fun _ => IoOk ["d/x.txt"; "d/y.txt"])
    (fun f => if String.eqb f "d/x.txt" then IoOk ["hello"]
              else IoError "PermissionError")
    no_signals.

Definition world_empty_dir : world := world_of [].

Definition world_empty_file : world := world_of [("d/empty.txt", [])].

Definition world_one_line : world := world_of [("d/empty.txt", ["first"])].

Definition world_txt : world := world_of [("d/a.txt", ["FOO"])].

Definition world_twice : world := world_of [("d/f.txt", ["FOO"; "FOO"])].

Definition world_f1 : world := world_of [("d/f1.txt", ["a"; "b"; "FOO"])].

(** A SIGTERM arrives while line 2 of [d/f1.txt] is being scanned. *)
Definition world_f1_signal : world :=
  mkWorld (watch_files_of world_f1) (readlines world_f1)
    (fun p => match p with
              | AtLine _ 2 => Some 15%Z
              | _ => None
              end).


(** The same environment with no signal delivered. *)
Definition quiet (w : world) : world :=
  mkWorld (watch_files_of w) (readlines w) no_signals.

(** [n] rounds of the directory-not-found handler. *)
Fixpoint backoff_events (path : option string) (n : nat) : list event :=
  match n with
  | O => []
  | S n' => LogDirNotFound path :: Sleep 5 :: backoff_events path n'
  end.

Definition add_events (evs : list event) (s : state) : state :=
  mkState (curr_dir_dict s) (prev_dir_dict s) (exit_program s)
          (trace s ++ evs) (stdout s).

(** Two states that differ at most in the exit flag and in what the signal
    handler printed. *)
Definition same_work (s1 s2 : state) : Prop :=
  curr_dir_dict s1 = curr_dir_dict s2 /\
  prev_dir_dict s1 = prev_dir_dict s2 /\
  trace s1 = trace s2.

Definition same_outcome {A} (r1 r2 : result A) : Prop :=
  match r1, r2 with
  | Ret a1 s1, Ret a2 s2 => a1 = a2 /\ same_work s1 s2
  | Raise e1 s1, Raise e2 s2 => e1 = e2 /\ same_work s1 s2
  | _, _ => False
  end.

(** The three configuration errors of the loop's handlers. *)
Definition is_config_error_event (e : event) : bool :=
  match e with
  | LogNoMagic | LogBadExtension _ | LogNoDirectory => true
  | _ => false
  end.

(** The same listing and the same file contents; the signals may differ. *)
Definition same_files (w1 w2 : world) : Prop :=
  (forall p, watch_files_of w1 p = watch_files_of w2 p) /\
  (forall f, readlines w1 f = readlines w2 f).

(** A computation that never clears the exit flag. *)
Definition keeps_flag {A} (m : M A) : Prop :=
  forall s, exit_program s = true -> exit_program (final_state (m s)) = true.

(** ** Notions used by the properties of whole runs *)

(** The file an event is about; the dump of the dictionary is about each of
    its keys. *)
Definition event_mentions (f : string) (e : event) : bool :=
  match e with
  | LogMatch _ g _ => String.eqb g f
  | LogRemoved g => String.eqb g f
  | LogAdded g => String.eqb g f
  | LogDict d => dict_mem d f
  | _ => false
  end.

(** The error messages after which the loop breaks. *)
Definition is_terminal_error_event (e : event) : bool :=
  match e with
  | LogNoMagic | LogBadExtension _ | LogNoDirectory | LogUnexpected _ => true
  | _ => false
  end.

(** 1 when [f] is a key of [d], else 0. *)
Definition tracked_bit (d : dict) (f : string) : nat :=
  if dict_mem d f then 1 else 0.

(** The log agrees with the snapshot: for every file, the additions logged
    so far exceed the removals by one exactly when the file is in the
    previous-cycle snapshot. *)
Definition balanced (s : state) : Prop :=
  forall f,
    count_events (is_added_event f) (trace s) =
    count_events (is_removed_event f) (trace s) + tracked_bit (prev_dir_dict s) f.

(** No key of either dictionary and no event is about [f]. *)
Definition never_seen (f : string) (s : state) : Prop :=
  dict_get (curr_dir_dict s) f = None /\
  dict_get (prev_dir_dict s) f = None /\
  count_events (event_mentions f) (trace s) = 0.

(** The events that the [except] clauses emit. *)
Definition is_handler_event (e : event) : bool :=
  match e with
  | LogInterrupted | LogDirNotFound _ | LogNoMagic | LogBadExtension _
  | LogNoDirectory | LogUnexpected _ | Sleep _ => true
  | _ => false
  end.

(** * Properties *)

(** ** Membership and dictionaries *)

Lemma mem_string_In (x : string) (l : list string) :
  mem_string x l = true <-> In x l.
Proof.
  unfold mem_string. rewrite existsb_exists. split.
  - intros [y [Hy He]]. apply String.eqb_eq in He. now subst.
  - intros H. exists x. split; [assumption | apply String.eqb_refl].
Qed.

Lemma mem_string_not_In (x : string) (l : list string) :
  mem_string x l = false <-> ~ In x l.
Proof.
  rewrite <- mem_string_In. destruct (mem_string x l); intuition congruence.
Qed.

Lemma dict_get_In (d : dict) (k : string) :
  In k (dict_keys d) <-> dict_get d k <> None.
Proof.
  induction d as [|[k' v] d IH]; simpl.
  - split; [tauto | congruence].
  - destruct (String.eqb_spec k' k) as [->|Hne].
    + split; [congruence | auto].
    + rewrite <- IH. split; [intros [H|H]; [congruence | assumption] | auto].
Qed.

Lemma dict_get_None (d : dict) (k : string) :
  ~ In k (dict_keys d) <-> dict_get d k = None.
Proof.
  rewrite dict_get_In. destruct (dict_get d k); intuition congruence.
Qed.

Lemma dict_get_set_same (d : dict) (k : string) (v : nat) :
  dict_get (dict_set d k v) k = Some v.
Proof.
  induction d as [|[k' v'] d IH]; simpl.
  - now rewrite String.eqb_refl.
  - destruct (String.eqb_spec k' k) as [->|Hne]; simpl.
    + now rewrite String.eqb_refl.
    + destruct (String.eqb_spec k' k); [contradiction | assumption].
Qed.

Lemma dict_get_set_other (d : dict) (k k' : string) (v : nat) :
  k' <> k -> dict_get (dict_set d k v) k' = dict_get d k'.
Proof.
  intros Hne. induction d as [|[k0 v0] d IH]; simpl.
  - destruct (String.eqb_spec k k'); [congruence | reflexivity].
  - destruct (String.eqb_spec k0 k) as [->|Hk]; simpl.
    + destruct (String.eqb_spec k k'); [congruence | reflexivity].
    + destruct (String.eqb_spec k0 k'); [reflexivity | assumption].
Qed.

Lemma dict_set_set (d : dict) (k : string) (v v' : nat) :
  dict_set (dict_set d k v) k v' = dict_set d k v'.
Proof.
  induction d as [|[k0 v0] d IH]; simpl.
  - now rewrite String.eqb_refl.
  - destruct (String.eqb_spec k0 k) as [->|Hk]; simpl.
    + now rewrite String.eqb_refl.
    + destruct (String.eqb_spec k0 k); [contradiction | now rewrite IH].
Qed.

Lemma dict_keys_set_old (d : dict) (k : string) (v : nat) :
  In k (dict_keys d) -> dict_keys (dict_set d k v) = dict_keys d.
Proof.
  induction d as [|[k0 v0] d IH]; simpl; [tauto|].
  intros H. destruct (String.eqb_spec k0 k) as [->|Hk]; simpl; [reflexivity|].
  f_equal. apply IH. destruct H; [contradiction | assumption].
Qed.

Lemma dict_keys_set_new (d : dict) (k : string) (v : nat) :
  ~ In k (dict_keys d) -> dict_keys (dict_set d k v) = dict_keys d ++ [k].
Proof.
  induction d as [|[k0 v0] d IH]; simpl; [reflexivity|].
  intros H. destruct (String.eqb_spec k0 k) as [->|Hk]; simpl.
  - exfalso. auto.
  - f_equal. apply IH. auto.
Qed.

Lemma dict_keys_set_incl (d : dict) (k : string) (v : nat) (x : string) :
  In x (dict_keys (dict_set d k v)) <-> In x (dict_keys d) \/ x = k.
Proof.
  destruct (in_dec string_dec k (dict_keys d)) as [Hin|Hout].
  - rewrite dict_keys_set_old by assumption.
    split; [auto | intros [H| ->]; assumption].
  - rewrite dict_keys_set_new by assumption. rewrite in_app_iff. simpl.
    split; [intros [H|[H|[]]]; auto | intros [H| ->]; auto].
Qed.

Lemma dict_keys_set_NoDup (d : dict) (k : string) (v : nat) :
  NoDup (dict_keys d) -> NoDup (dict_keys (dict_set d k v)).
Proof.
  intros Hnd. destruct (in_dec string_dec k (dict_keys d)) as [Hin|Hout].
  - now rewrite dict_keys_set_old.
  - rewrite dict_keys_set_new by assumption.
    apply NoDup_app; [assumption | repeat constructor; simpl; tauto |].
    intros x Hx [<-|[]]. contradiction.
Qed.

Lemma dict_keys_del (d : dict) (k : string) :
  dict_keys (dict_del d k) =
  filter (fun x => negb (String.eqb x k)) (dict_keys d).
Proof.
  unfold dict_del, dict_keys.
  induction d as [|[k0 v0] d IH]; simpl; [reflexivity|].
  destruct (String.eqb k0 k); simpl; now rewrite IH.
Qed.

Lemma dict_keys_del_In (d : dict) (k x : string) :
  In x (dict_keys (dict_del d k)) <-> In x (dict_keys d) /\ x <> k.
Proof.
  rewrite dict_keys_del, filter_In, negb_true_iff.
  destruct (String.eqb_spec x k); split; intros [H1 H2]; split;
    congruence || assumption.
Qed.

Lemma dict_keys_del_NoDup (d : dict) (k : string) :
  NoDup (dict_keys d) -> NoDup (dict_keys (dict_del d k)).
Proof. rewrite dict_keys_del. apply NoDup_filter. Qed.

Lemma dict_get_del_same (d : dict) (k : string) :
  dict_get (dict_del d k) k = None.
Proof.
  apply dict_get_None. rewrite dict_keys_del_In. tauto.
Qed.

Lemma dict_get_del_other (d : dict) (k k' : string) :
  k' <> k -> dict_get (dict_del d k) k' = dict_get d k'.
Proof.
  intros Hne. unfold dict_del.
  induction d as [|[k0 v0] d IH]; simpl; [reflexivity|].
  destruct (String.eqb_spec k0 k) as [->|Hk]; simpl.
  - destruct (String.eqb_spec k k'); [congruence | assumption].
  - destruct (String.eqb_spec k0 k'); [reflexivity | assumption].
Qed.

(** ** The scanning phase as a sequence of atomic steps *)

Lemma deliver_eq (w : world) (p : point) (s : state) :
  deliver w p s = Ret tt (deliver_state w p s).
Proof. unfold deliver, deliver_state. now destruct (signals w p). Qed.

Lemma scan_steps_trans (P : string -> Prop) (s1 s2 s3 : state) :
  scan_steps P s1 s2 -> scan_steps P s2 s3 -> scan_steps P s1 s3.
Proof.
  induction 1 as [|a b c Hab Hbc IH]; intros H; [assumption|].
  eapply scan_then; [exact Hab | auto].
Qed.

Lemma scan_steps_one (P : string -> Prop) (s1 s2 : state) :
  scan_step P s1 s2 -> scan_steps P s1 s2.
Proof. intros H. eapply scan_then; [exact H | apply scan_refl]. Qed.

Lemma scan_steps_weaken (P Q : string -> Prop) (s1 s2 : state) :
  (forall f, P f -> Q f) -> scan_steps P s1 s2 -> scan_steps Q s1 s2.
Proof.
  intros HPQ. induction 1 as [|a b c Hab Hbc IH]; [apply scan_refl|].
  eapply scan_then; [|exact IH].
  destruct Hab; constructor; auto.
Qed.

Lemma deliver_steps (P : string -> Prop) (w : world) (p : point) (s : state) :
  scan_steps P s (deliver_state w p s).
Proof.
  unfold deliver_state. destruct (signals w p).
  - apply scan_steps_one. constructor.
  - apply scan_refl.
Qed.

Lemma final_state_bind {A B} (m : M A) (k : A -> M B) (s : state) :
  final_state (bind m k s) =
  match m s with
  | Ret a s' => final_state (k a s')
  | Raise _ s' => s'
  end.
Proof. unfold bind. now destruct (m s). Qed.

Lemma scan_lines_steps (P : string -> Prop) (w : world) (f : string)
    (m : option string) (contents : list string) (n : nat) :
  P f ->
  forall (a : nat) (s : state),
    dict_get_default (curr_dir_dict s) f 0 < a ->
    scan_steps P s (final_state (scan_lines w f m contents (seq a n) s)).
Proof.
  intros HP. induction n as [|n IH]; intros a s Hlt; simpl.
  - apply scan_refl.
  - rewrite final_state_bind, deliver_eq.
    eapply scan_steps_trans; [apply deliver_steps|].
    set (s0 := deliver_state w (AtLine f a) s).
    assert (Hlt0 : dict_get_default (curr_dir_dict s0) f 0 < a).
    { unfold s0, deliver_state. now destruct (signals w (AtLine f a)). }
    rewrite final_state_bind. unfold modify at 1.
    eapply scan_then; [apply scan_set with (f := f) (i := a); eassumption|].
    destruct (py_in m (nth a contents "")) as [[|]|]; simpl.
    + apply scan_steps_one. now constructor.
    + apply IH. simpl. unfold dict_get_default.
      rewrite dict_get_set_same. lia.
    + apply scan_refl.
Qed.

Lemma search_for_magic_steps (P : string -> Prop) (w : world) (f : string)
    (m : option string) (s : state) :
  P f ->
  scan_steps P s
    (final_state
       (search_for_magic w f (dict_get_default (curr_dir_dict s) f 0 + 1) m s)).
Proof.
  intros HP. unfold search_for_magic, bind.
  destruct (readlines w f) as [lines| |name]; simpl; try apply scan_refl.
  apply scan_lines_steps; [exact HP | lia].
Qed.

Lemma filter_extension_steps (w : world) (m extension : option string)
    (files : list string) (s : state) :
  scan_steps (fun f => In f files /\ passes_filter extension f = true) s
    (final_state (filter_extension w m extension files s)).
Proof.
  revert s. induction files as [|file rest IH]; intros s; simpl.
  - apply scan_refl.
  - rewrite final_state_bind, deliver_eq.
    eapply scan_steps_trans; [apply deliver_steps|].
    set (s0 := deliver_state w (AtFile file) s).
    rewrite final_state_bind.
    assert (Hrest : forall s1,
      scan_steps (fun f => (file = f \/ In f rest) /\
                           passes_filter extension f = true) s1
        (final_state (filter_extension w m extension rest s1))).
    { intros s1. eapply scan_steps_weaken; [|apply IH]. simpl. tauto. }
    destruct (passes_filter extension file) eqn:Hpass.
    + unfold bind at 1, gets at 1.
      pose proof (search_for_magic_steps
        (fun f => (file = f \/ In f rest) /\ passes_filter extension f = true)
        w file m s0 (conj (or_introl eq_refl) Hpass)) as Hs.
      destruct (search_for_magic w file _ m s0) as [[] s1|e s1]; simpl in Hs.
      * eapply scan_steps_trans; [exact Hs | apply Hrest].
      * exact Hs.
    + unfold ret at 1. apply Hrest.
Qed.

(** What every sequence of scanning steps preserves. *)

Lemma scan_steps_prev (P : string -> Prop) (s s' : state) :
  scan_steps P s s' -> prev_dir_dict s' = prev_dir_dict s.
Proof.
  induction 1 as [|a b c Hab Hbc IH]; [reflexivity|].
  rewrite IH. now destruct Hab.
Qed.

Lemma scan_steps_grow (P : string -> Prop) (s s' : state) :
  scan_steps P s s' ->
  forall k n, dict_get (curr_dir_dict s) k = Some n ->
  exists n', dict_get (curr_dir_dict s') k = Some n' /\ n <= n'.
Proof.
  induction 1 as [|a b c Hab Hbc IH]; intros k n Hk.
  - exists n. split; [assumption | lia].
  - assert (Hb : exists n1, dict_get (curr_dir_dict b) k = Some n1 /\ n <= n1).
    { destruct Hab as [sig_num s|f i s HP Hlt|m f i s HP]; simpl.
      - exists n. split; [assumption | lia].
      - destruct (string_dec k f) as [->|Hne].
        + rewrite dict_get_set_same. exists i. split; [reflexivity|].
          unfold dict_get_default in Hlt. rewrite Hk in Hlt. lia.
        + rewrite dict_get_set_other by assumption.
          exists n. split; [assumption | lia].
      - exists n. split; [assumption | lia]. }
    destruct Hb as [n1 [Hb Hle]].
    destruct (IH k n1 Hb) as [n' [Hc Hle']].
    exists n'. split; [assumption | lia].
Qed.

Lemma scan_steps_keys (P : string -> Prop) (s s' : state) :
  scan_steps P s s' ->
  forall k, In k (dict_keys (curr_dir_dict s')) ->
  In k (dict_keys (curr_dir_dict s)) \/ P k.
Proof.
  induction 1 as [|a b c Hab Hbc IH]; intros k Hk; [auto|].
  destruct (IH k Hk) as [Hb|HP]; [|auto].
  destruct Hab as [sig_num s|f i s HP Hlt|m f i s HP]; simpl in Hb; auto.
  apply dict_keys_set_incl in Hb. destruct Hb as [Hb| ->]; auto.
Qed.

Lemma scan_steps_keys_incl (P : string -> Prop) (s s' : state) :
  scan_steps P s s' ->
  incl (dict_keys (curr_dir_dict s)) (dict_keys (curr_dir_dict s')).
Proof.
  intros H k Hk. apply dict_get_In in Hk.
  destruct (dict_get (curr_dir_dict s) k) as [n|] eqn:E; [|congruence].
  destruct (scan_steps_grow P s s' H k n E) as [n' [Hn' _]].
  apply dict_get_In. congruence.
Qed.

Lemma scan_steps_other (P : string -> Prop) (s s' : state) :
  scan_steps P s s' ->
  forall k, ~ P k ->
  dict_get (curr_dir_dict s') k = dict_get (curr_dir_dict s) k.
Proof.
  induction 1 as [|a b c Hab Hbc IH]; intros k Hk; [reflexivity|].
  rewrite IH by assumption.
  destruct Hab as [sig_num s|f i s HP Hlt|m f i s HP]; simpl; try reflexivity.
  apply dict_get_set_other. intros ->. contradiction.
Qed.

Lemma scan_steps_NoDup (P : string -> Prop) (s s' : state) :
  scan_steps P s s' ->
  NoDup (dict_keys (curr_dir_dict s)) -> NoDup (dict_keys (curr_dir_dict s')).
Proof.
  induction 1 as [|a b c Hab Hbc IH]; intros Hnd; [assumption|].
  apply IH. destruct Hab; simpl; try assumption.
  now apply dict_keys_set_NoDup.
Qed.

Lemma scan_steps_trace (P : string -> Prop) (s s' : state) :
  scan_steps P s s' ->
  exists evs, trace s' = trace s ++ evs /\ Forall (is_scan_event P) evs.
Proof.
  induction 1 as [|a b c Hab Hbc IH].
  - exists []. split; [now rewrite app_nil_r | constructor].
  - destruct IH as [evs [Ht Hall]].
    destruct Hab as [sig_num s|f i s HP Hlt|m f i s HP]; simpl in Ht.
    + exists evs. auto.
    + exists evs. auto.
    + exists (LogMatch m f i :: evs). split.
      * now rewrite Ht, <- app_assoc.
      * constructor; [|assumption]. now exists m, f, i.
Qed.

(** ** Configuration check *)

Lemma alert_user_valid (path m extension : option string) (s : state) :
  valid_config path m extension -> alert_user path m extension s = Ret tt s.
Proof.
  intros [Hm [Hp He]]. unfold alert_user, bind.
  rewrite Hm, Hp. simpl.
  destruct He as [->|[e ->]]; reflexivity.
Qed.

Lemma alert_user_final (path m extension : option string) (s : state) :
  final_state (alert_user path m extension s) = s.
Proof.
  unfold alert_user, bind.
  destruct (truthy m); simpl; [|reflexivity].
  destruct extension as [[|c e]|]; simpl; try reflexivity.
  - destruct (Ascii.eqb c "."); simpl; [|reflexivity].
    destruct (truthy path); reflexivity.
  - destruct (truthy path); reflexivity.
Qed.

Lemma alert_user_ret (path m extension : option string) (s s' : state) :
  alert_user path m extension s = Ret tt s' ->
  valid_config path m extension /\ s' = s.
Proof.
  unfold alert_user, bind, valid_config.
  destruct (truthy m); simpl; [|discriminate].
  destruct extension as [[|c e]|]; simpl; try discriminate.
  - destruct (Ascii.eqb_spec c "."); simpl; [|discriminate].
    destruct (truthy path); simpl; [|discriminate].
    intros [= <-]. subst c. eauto 6.
  - destruct (truthy path); simpl; [|discriminate].
    intros [= <-]. auto.
Qed.

(** ** Directory diff *)

Lemma dict_get_fold_del (ks : list string) (d : dict) (k : string) :
  dict_get (fold_left dict_del ks d) k =
  if mem_string k ks then None else dict_get d k.
Proof.
  revert d. induction ks as [|x ks IH]; intros d; simpl; [reflexivity|].
  rewrite IH. destruct (String.eqb_spec k x) as [->|Hne]; simpl.
  - rewrite dict_get_del_same. now destruct (mem_string x ks).
  - rewrite dict_get_del_other by assumption. reflexivity.
Qed.

Lemma dict_keys_fold_del_In (ks : list string) (d : dict) (x : string) :
  In x (dict_keys (fold_left dict_del ks d)) <->
  In x (dict_keys d) /\ ~ In x ks.
Proof.
  revert d. induction ks as [|k ks IH]; intros d; simpl; [tauto|].
  rewrite IH, dict_keys_del_In. intuition congruence.
Qed.

Lemma dict_keys_fold_del_NoDup (ks : list string) (d : dict) :
  NoDup (dict_keys d) -> NoDup (dict_keys (fold_left dict_del ks d)).
Proof.
  revert d. induction ks as [|k ks IH]; intros d H; simpl; [assumption|].
  apply IH. now apply dict_keys_del_NoDup.
Qed.

Lemma removed_step_eq (file : string) (s : state) :
  (del_curr file ;; modify (emit (LogRemoved file))) s =
  if dict_mem (curr_dir_dict s) file
  then Ret tt (emit (LogRemoved file)
                 (set_curr (dict_del (curr_dir_dict s) file) s))
  else Raise (OtherError "KeyError") s.
Proof.
  unfold bind, del_curr, modify.
  now destruct (dict_mem (curr_dir_dict s) file).
Qed.

(** Removal only deletes: whatever the loop does, an entry that is present
    afterwards was present before, with the same value. *)
Lemma detect_removed_loop_shrink (keys files : list string) (s : state) :
  let s' := final_state (detect_removed_loop keys files s) in
  prev_dir_dict s' = prev_dir_dict s /\
  forall k n, dict_get (curr_dir_dict s') k = Some n ->
              dict_get (curr_dir_dict s) k = Some n.
Proof.
  revert s. induction keys as [|file rest IH]; intros s; simpl.
  - auto.
  - rewrite final_state_bind.
    destruct (mem_string file files).
    + unfold ret at 1. apply IH.
    + rewrite removed_step_eq.
      destruct (dict_mem (curr_dir_dict s) file); simpl; [|auto].
      destruct (IH (emit (LogRemoved file)
                      (set_curr (dict_del (curr_dir_dict s) file) s)))
        as [Hp Hc].
      split; [exact Hp|].
      intros k n Hk. apply Hc in Hk. simpl in Hk.
      destruct (string_dec k file) as [->|Hne].
      * rewrite dict_get_del_same in Hk. discriminate.
      * now rewrite dict_get_del_other in Hk.
Qed.

Lemma detect_removed_loop_ok (keys files : list string) (s : state) :
  NoDup keys -> incl keys (dict_keys (curr_dir_dict s)) ->
  detect_removed_loop keys files s =
  Ret tt (mkState (fold_left dict_del (removed_keys keys files) (curr_dir_dict s))
                  (prev_dir_dict s) (exit_program s)
                  (trace s ++ map LogRemoved (removed_keys keys files))
                  (stdout s)).
Proof.
  revert s. induction keys as [|file rest IH]; intros s Hnd Hincl; simpl.
  - rewrite app_nil_r. now destruct s.
  - inversion Hnd as [|x l Hnotin Hnd']; subst.
    unfold bind at 1.
    destruct (mem_string file files) eqn:Hmem.
    + unfold ret at 1. apply IH; [assumption|].
      intros x Hx. apply Hincl. now right.
    + rewrite removed_step_eq. unfold dict_mem.
      assert (Hin : mem_string file (dict_keys (curr_dir_dict s)) = true).
      { apply mem_string_In, Hincl. now left. }
      rewrite Hin.
      rewrite IH; [|assumption|].
      * simpl. now rewrite <- app_assoc.
      * intros x Hx. simpl. apply dict_keys_del_In. split.
        -- apply Hincl. now right.
        -- intros ->. contradiction.
Qed.

Lemma detect_added_loop_eq (keys : list string) (prev_dict : dict) (s : state) :
  detect_added_loop keys prev_dict s =
  Ret tt (mkState (curr_dir_dict s) (prev_dir_dict s) (exit_program s)
                  (trace s ++ map LogAdded (added_keys keys prev_dict))
                  (stdout s)).
Proof.
  revert s. induction keys as [|file rest IH]; intros s; simpl.
  - rewrite app_nil_r. now destruct s.
  - unfold bind at 1.
    destruct (mem_string file (dict_keys prev_dict)).
    + unfold ret at 1. apply IH.
    + unfold modify at 1. rewrite IH. simpl. now rewrite <- app_assoc.
Qed.

Lemma detect_added_files_eq (prev_dict files : dict) (s : state) :
  detect_added_files prev_dict files s =
  Ret tt (mkState (curr_dir_dict s) (prev_dir_dict s) (exit_program s)
                  (trace s ++ map LogAdded
                     (added_keys (dict_keys (curr_dir_dict s)) prev_dict))
                  (stdout s)).
Proof.
  unfold detect_added_files, bind, gets. apply detect_added_loop_eq.
Qed.

Lemma count_events_app (p : event -> bool) (l1 l2 : list event) :
  count_events p (l1 ++ l2) = count_events p l1 + count_events p l2.
Proof. unfold count_events. now rewrite filter_app, length_app. Qed.

Lemma count_events_zero (p : event -> bool) (l : list event) :
  (forall e, In e l -> p e = false) -> count_events p l = 0.
Proof.
  unfold count_events. induction l as [|e l IH]; intros H; simpl; [reflexivity|].
  rewrite (H e) by now left. apply IH. intros x Hx. apply H. now right.
Qed.

Lemma count_removed_map (file : string) (ks : list string) :
  NoDup ks ->
  count_events (is_removed_event file) (map LogRemoved ks) =
  if mem_string file ks then 1 else 0.
Proof.
  unfold count_events.
  induction ks as [|k ks IH]; intros Hnd; simpl; [reflexivity|].
  inversion Hnd as [|x l Hnotin Hnd']; subst.
  rewrite String.eqb_sym.
  destruct (String.eqb_spec file k) as [->|Hne]; simpl.
  - rewrite IH by assumption.
    apply mem_string_not_In in Hnotin. now rewrite Hnotin.
  - now apply IH.
Qed.

Lemma count_added_map (file : string) (ks : list string) :
  NoDup ks ->
  count_events (is_added_event file) (map LogAdded ks) =
  if mem_string file ks then 1 else 0.
Proof.
  unfold count_events.
  induction ks as [|k ks IH]; intros Hnd; simpl; [reflexivity|].
  inversion Hnd as [|x l Hnotin Hnd']; subst.
  rewrite String.eqb_sym.
  destruct (String.eqb_spec file k) as [->|Hne]; simpl.
  - rewrite IH by assumption.
    apply mem_string_not_In in Hnotin. now rewrite Hnotin.
  - now apply IH.
Qed.

Lemma new_events_app (s s' : state) (evs : list event) :
  trace s' = trace s ++ evs -> new_events s s' = evs.
Proof.
  intros H. unfold new_events. rewrite H.
  rewrite skipn_app, skipn_all, Nat.sub_diag. reflexivity.
Qed.

(** ** One cycle *)

Lemma bind_ret_inv {A B} (m : M A) (k : A -> M B) (s s' : state) (b : B) :
  bind m k s = Ret b s' ->
  exists a s1, m s = Ret a s1 /\ k a s1 = Ret b s'.
Proof.
  unfold bind. destruct (m s) as [a s1|e s1]; [eauto | discriminate].
Qed.

Lemma deliver_state_views (w : world) (p : point) (s : state) :
  curr_dir_dict (deliver_state w p s) = curr_dir_dict s /\
  prev_dir_dict (deliver_state w p s) = prev_dir_dict s /\
  trace (deliver_state w p s) = trace s.
Proof. unfold deliver_state. now destruct (signals w p). Qed.

Lemma deliver_state_curr (w : world) (p : point) (s : state) :
  curr_dir_dict (deliver_state w p s) = curr_dir_dict s.
Proof. apply deliver_state_views. Qed.

Lemma deliver_state_prev (w : world) (p : point) (s : state) :
  prev_dir_dict (deliver_state w p s) = prev_dir_dict s.
Proof. apply deliver_state_views. Qed.

Lemma deliver_state_trace (w : world) (p : point) (s : state) :
  trace (deliver_state w p s) = trace s.
Proof. apply deliver_state_views. Qed.

Lemma entry_state_views (w : world) (s : state) :
  curr_dir_dict (entry_state w s) = curr_dir_dict s /\
  prev_dir_dict (entry_state w s) = prev_dir_dict s /\
  trace (entry_state w s) = trace s.
Proof.
  unfold entry_state.
  destruct (deliver_state_views w AtListing (deliver_state w AtValidate s))
    as [-> [-> ->]].
  apply deliver_state_views.
Qed.

Lemma time_sleep_ret (secs : Z) (s s' : state) :
  time_sleep secs s = Ret tt s' -> (0 <= secs)%Z /\ s' = emit (Sleep secs) s.
Proof.
  unfold time_sleep. destruct (Z.ltb_spec secs 0); [discriminate|].
  destruct (9223372037 <=? secs)%Z; [discriminate|].
  unfold modify. intros [= <-]. auto.
Qed.

(** The shape of a cycle that ran to its end. *)
Lemma cycle_body_ret (w : world) (path m extension : option string)
    (interval : Z) (s s' : state) :
  wf_state s ->
  cycle_body w path m extension interval s = Ret tt s' ->
  exists files s1,
    valid_config path m extension /\
    watch_files_of w path = IoOk files /\
    filter_extension w m extension files (entry_state w s) = Ret tt s1 /\
    (0 <= interval)%Z /\
    curr_dir_dict s' =
      fold_left dict_del (removed_keys (dict_keys (prev_dir_dict s)) files)
                (curr_dir_dict s1) /\
    prev_dir_dict s' = curr_dir_dict s' /\
    trace s' =
      trace s1
      ++ map LogRemoved (removed_keys (dict_keys (prev_dir_dict s)) files)
      ++ map LogAdded (added_keys (dict_keys (curr_dir_dict s')) (prev_dir_dict s))
      ++ [LogDict (curr_dir_dict s'); Sleep interval].
Proof.
  intros [Hnc [Hnp Hincl]] H. unfold cycle_body in H.
  apply bind_ret_inv in H. destruct H as [[] [s0 [H0 H]]].
  rewrite deliver_eq in H0. injection H0 as <-.
  apply bind_ret_inv in H. destruct H as [[] [s0' [Ha H]]].
  apply alert_user_ret in Ha. destruct Ha as [Hvalid ->].
  apply bind_ret_inv in H. destruct H as [[] [s0' [H0 H]]].
  rewrite deliver_eq in H0. injection H0 as <-.
  fold (entry_state w s) in H.
  apply bind_ret_inv in H. destruct H as [files [s0' [Hl H]]].
  assert (Hfiles : watch_files_of w path = IoOk files /\ s0' = entry_state w s).
  { unfold lift_io in Hl. destruct (watch_files_of w path); try discriminate.
    unfold ret in Hl. injection Hl as -> ->. auto. }
  destruct Hfiles as [Hfiles ->].
  apply bind_ret_inv in H. destruct H as [[] [s1 [Hf H]]].
  exists files, s1.
  pose proof (filter_extension_steps w m extension files (entry_state w s)) as Hs.
  rewrite Hf in Hs. simpl in Hs.
  destruct (entry_state_views w s) as [Hec [Hep Het]].
  pose proof (scan_steps_prev _ _ _ Hs) as Hp1. rewrite Hep in Hp1.
  pose proof (scan_steps_keys_incl _ _ _ Hs) as Hk1. rewrite Hec in Hk1.
  apply bind_ret_inv in H. destruct H as [[] [s2 [H0 H]]].
  rewrite deliver_eq in H0. injection H0 as <-.
  destruct (deliver_state_views w AtDiff s1) as [Hdc [Hdp Hdt]].
  apply bind_ret_inv in H. destruct H as [prev [s2 [H0 H]]].
  unfold gets in H0. injection H0 as <- <-.
  apply bind_ret_inv in H. destruct H as [[] [s3 [Hr H]]].
  unfold detect_removed_files in Hr.
  rewrite detect_removed_loop_ok in Hr.
  2:{ now rewrite Hdp, Hp1. }
  2:{ rewrite Hdp, Hp1, Hdc. intros x Hx. auto. }
  injection Hr as <-.
  apply bind_ret_inv in H. destruct H as [curr [s4 [H0 H]]].
  unfold gets in H0. injection H0 as <- <-.
  apply bind_ret_inv in H. destruct H as [[] [s4 [Had H]]].
  unfold detect_added_files in Had.
  apply bind_ret_inv in Had. destruct Had as [keys [s5 [H0 Had]]].
  unfold gets in H0. injection H0 as <- <-.
  rewrite detect_added_loop_eq in Had. injection Had as <-.
  apply bind_ret_inv in H. destruct H as [d [s4 [H0 H]]].
  unfold gets in H0. injection H0 as <- <-.
  apply bind_ret_inv in H. destruct H as [[] [s4 [H0 H]]].
  unfold modify in H0. injection H0 as <-.
  apply bind_ret_inv in H. destruct H as [[] [s4 [H0 H]]].
  unfold modify in H0. injection H0 as <-.
  apply bind_ret_inv in H. destruct H as [[] [s4 [H0 H]]].
  rewrite deliver_eq in H0. injection H0 as <-.
  apply time_sleep_ret in H. destruct H as [Hint ->].
  split; [exact Hvalid|]. split; [exact Hfiles|]. split; [exact Hf|].
  split; [exact Hint|]. split; [|split].
  - repeat (rewrite ?deliver_state_curr, ?deliver_state_prev; simpl).
    now rewrite Hp1.
  - repeat (rewrite ?deliver_state_curr, ?deliver_state_prev; simpl).
    reflexivity.
  - repeat (rewrite ?deliver_state_curr, ?deliver_state_prev,
              ?deliver_state_trace; simpl).
    rewrite Hp1. now rewrite <- !app_assoc.
Qed.

(** ** Which files the scanning phase starts to track *)

Lemma scan_lines_same_keys (w : world) (f : string) (m : option string)
    (contents : list string) (indices : list nat) (s : state) :
  In f (dict_keys (curr_dir_dict s)) ->
  dict_keys (curr_dir_dict (final_state (scan_lines w f m contents indices s))) =
  dict_keys (curr_dir_dict s).
Proof.
  revert s. induction indices as [|index rest IH]; intros s Hin; simpl.
  - reflexivity.
  - rewrite final_state_bind, deliver_eq, final_state_bind. unfold modify at 1.
    assert (Hk : dict_keys (dict_set (curr_dir_dict
                   (deliver_state w (AtLine f index) s)) f index) =
                 dict_keys (curr_dir_dict s)).
    { rewrite deliver_state_curr. now apply dict_keys_set_old. }
    destruct (py_in m (nth index contents "")) as [[|]|]; simpl.
    + exact Hk.
    + rewrite IH; simpl; [exact Hk | now rewrite Hk].
    + exact Hk.
Qed.

Lemma search_for_magic_same_keys (w : world) (f : string) (m : option string)
    (s : state) :
  In f (dict_keys (curr_dir_dict s)) \/ readlines w f = IoOk [] ->
  dict_keys (curr_dir_dict (final_state
    (search_for_magic w f (dict_get_default (curr_dir_dict s) f 0 + 1) m s))) =
  dict_keys (curr_dir_dict s).
Proof.
  intros H. unfold search_for_magic. rewrite final_state_bind.
  destruct (readlines w f) as [lines| |name] eqn:Hr; simpl; try reflexivity.
  destruct (in_dec string_dec f (dict_keys (curr_dir_dict s))) as [Hin|Hout].
  - now apply scan_lines_same_keys.
  - destruct H as [H|H]; [contradiction|]. injection H as ->.
    apply dict_get_None in Hout. unfold dict_get_default. rewrite Hout.
    reflexivity.
Qed.

Lemma filter_extension_same_keys (w : world) (m extension : option string)
    (files : list string) (s : state) :
  (forall f, In f files -> passes_filter extension f = true ->
             In f (dict_keys (curr_dir_dict s)) \/ readlines w f = IoOk []) ->
  dict_keys (curr_dir_dict (final_state (filter_extension w m extension files s))) =
  dict_keys (curr_dir_dict s).
Proof.
  revert s. induction files as [|file rest IH]; intros s H; simpl.
  - reflexivity.
  - rewrite final_state_bind, deliver_eq, final_state_bind.
    set (s0 := deliver_state w (AtFile file) s).
    assert (Hs0 : curr_dir_dict s0 = curr_dir_dict s)
      by apply deliver_state_curr.
    destruct (passes_filter extension file) eqn:Hpass.
    + unfold bind at 1, gets at 1.
      assert (Hfile : In file (dict_keys (curr_dir_dict s0)) \/
                      readlines w file = IoOk []).
      { rewrite Hs0. apply H; [now left | assumption]. }
      pose proof (search_for_magic_same_keys w file m s0 Hfile) as Hk.
      destruct (search_for_magic w file _ m s0) as [[] s1|e s1]; simpl in Hk.
      * rewrite IH; [now rewrite Hk, Hs0|].
        intros f Hf Hp. rewrite Hk, Hs0. apply H; [now right | assumption].
      * now rewrite Hk, Hs0.
    + unfold ret at 1. rewrite IH; [now rewrite Hs0|].
      intros f Hf Hp. rewrite Hs0. apply H; [now right | assumption].
Qed.

Lemma search_for_magic_tracks (w : world) (f : string) (m : option string)
    (s s' : state) :
  search_for_magic w f (dict_get_default (curr_dir_dict s) f 0 + 1) m s =
    Ret tt s' ->
  In f (dict_keys (curr_dir_dict s')) \/ readlines w f = IoOk [].
Proof.
  intros H.
  destruct (in_dec string_dec f (dict_keys (curr_dir_dict s))) as [Hin|Hout].
  - left.
    pose proof (search_for_magic_steps (fun _ => True) w f m s I) as Hs.
    rewrite H in Hs. simpl in Hs.
    now apply (scan_steps_keys_incl _ _ _ Hs).
  - unfold search_for_magic in H.
    apply bind_ret_inv in H. destruct H as [lines [s0 [Hl H]]].
    unfold lift_io in Hl.
    destruct (readlines w f) as [lines'| |name]; try discriminate.
    unfold ret in Hl. injection Hl as -> ->.
    destruct lines as [|l ls]; [now right | left].
    apply dict_get_None in Hout. unfold dict_get_default in H.
    rewrite Hout in H. simpl in H.
    apply bind_ret_inv in H. destruct H as [[] [s1 [H1 H]]].
    rewrite deliver_eq in H1. injection H1 as <-.
    apply bind_ret_inv in H. destruct H as [[] [s2 [H2 H]]].
    unfold modify in H2. injection H2 as <-.
    set (s2 := set_curr _ _) in H.
    assert (Hin2 : In f (dict_keys (curr_dir_dict s2))).
    { unfold s2. simpl. apply dict_keys_set_incl. now right. }
    destruct (py_in m l) as [[|]|].
    + unfold modify in H. injection H as <-. exact Hin2.
    + pose proof (scan_lines_same_keys w f m ("" :: l :: ls)
                    (seq 2 (List.length ls)) s2 Hin2) as Hk.
      rewrite H in Hk. simpl in Hk. now rewrite Hk.
    + discriminate.
Qed.

Lemma filter_extension_tracks (w : world) (m extension : option string)
    (files : list string) (s s' : state) :
  filter_extension w m extension files s = Ret tt s' ->
  forall f, In f files -> passes_filter extension f = true ->
  In f (dict_keys (curr_dir_dict s')) \/ readlines w f = IoOk [].
Proof.
  revert s. induction files as [|file rest IH]; intros s H f Hf Hp.
  - destruct Hf.
  - simpl in H.
    apply bind_ret_inv in H. destruct H as [[] [s0 [H0 H]]].
    rewrite deliver_eq in H0. injection H0 as <-.
    apply bind_ret_inv in H. destruct H as [[] [s1 [H1 H]]].
    destruct Hf as [->|Hf]; [|now apply (IH s1)].
    rewrite Hp in H1. unfold bind at 1, gets at 1 in H1.
    apply search_for_magic_tracks in H1.
    destruct H1 as [H1|H1]; [left | now right].
    pose proof (filter_extension_steps w m extension rest s1) as Hs.
    rewrite H in Hs. simpl in Hs.
    now apply (scan_steps_keys_incl _ _ _ Hs).
Qed.

(** A cycle that ran to its end, seen from outside: the scanning phase,
    then the deletions, then the events of the two diff passes. *)
Lemma cycle_summary (w : world) (path m extension : option string)
    (interval : Z) (s s' : state) (files : list string) :
  wf_state s ->
  cycle_body w path m extension interval s = Ret tt s' ->
  watch_files_of w path = IoOk files ->
  exists s1 evs,
    filter_extension w m extension files (entry_state w s) = Ret tt s1 /\
    scan_steps (fun f => In f files /\ passes_filter extension f = true)
               (entry_state w s) s1 /\
    Forall (is_scan_event
              (fun f => In f files /\ passes_filter extension f = true)) evs /\
    curr_dir_dict s' =
      fold_left dict_del (removed_keys (dict_keys (prev_dir_dict s)) files)
                (curr_dir_dict s1) /\
    prev_dir_dict s' = curr_dir_dict s' /\
    new_events s s' =
      evs
      ++ map LogRemoved (removed_keys (dict_keys (prev_dir_dict s)) files)
      ++ map LogAdded (added_keys (dict_keys (curr_dir_dict s')) (prev_dir_dict s))
      ++ [LogDict (curr_dir_dict s'); Sleep interval].
Proof.
  intros Hwf H Hfiles.
  destruct (cycle_body_ret _ _ _ _ _ _ _ Hwf H)
    as [files' [s1 [_ [Hfiles' [Hf [_ [Hc [Hp Ht]]]]]]]].
  rewrite Hfiles in Hfiles'. injection Hfiles' as <-.
  pose proof (filter_extension_steps w m extension files (entry_state w s)) as Hs.
  rewrite Hf in Hs. simpl in Hs.
  destruct (scan_steps_trace _ _ _ Hs) as [evs [Hevs Hall]].
  destruct (entry_state_views w s) as [_ [_ Het]]. rewrite Het in Hevs.
  exists s1, evs. repeat (split; [assumption|]).
  apply new_events_app. rewrite Ht, Hevs. now rewrite <- !app_assoc.
Qed.

Lemma scan_events_not_removed (P : string -> Prop) (file : string)
    (evs : list event) :
  Forall (is_scan_event P) evs -> count_events (is_removed_event file) evs = 0.
Proof.
  intros H. apply count_events_zero. intros e He.
  rewrite Forall_forall in H. destruct (H e He) as [m [f [i [-> _]]]].
  reflexivity.
Qed.

Lemma scan_events_not_added (P : string -> Prop) (file : string)
    (evs : list event) :
  Forall (is_scan_event P) evs -> count_events (is_added_event file) evs = 0.
Proof.
  intros H. apply count_events_zero. intros e He.
  rewrite Forall_forall in H. destruct (H e He) as [m [f [i [-> _]]]].
  reflexivity.
Qed.

Lemma count_removed_in_added (file : string) (ks : list string) :
  count_events (is_removed_event file) (map LogAdded ks) = 0.
Proof.
  apply count_events_zero. intros e He. apply in_map_iff in He.
  destruct He as [k [<- _]]. reflexivity.
Qed.

Lemma count_added_in_removed (file : string) (ks : list string) :
  count_events (is_added_event file) (map LogRemoved ks) = 0.
Proof.
  apply count_events_zero. intros e He. apply in_map_iff in He.
  destruct He as [k [<- _]]. reflexivity.
Qed.

Lemma removed_keys_In (keys files : list string) (x : string) :
  In x (removed_keys keys files) <-> In x keys /\ ~ In x files.
Proof.
  unfold removed_keys. rewrite filter_In, negb_true_iff, mem_string_not_In.
  tauto.
Qed.

Lemma added_keys_In (keys : list string) (prev_dict : dict) (x : string) :
  In x (added_keys keys prev_dict) <->
  In x keys /\ ~ In x (dict_keys prev_dict).
Proof.
  unfold added_keys. rewrite filter_In, negb_true_iff, mem_string_not_In.
  tauto.
Qed.

(** The invariant holds at start-up and after every iteration, whatever its
    outcome. *)
Lemma wf_initial : wf_state initial_state.
Proof. repeat split; simpl; try constructor. intros x []. Qed.

Lemma removed_event_count (w : world) (path m extension : option string)
    (interval : Z) (s s' : state) (files : list string) (f : string) :
  wf_state s ->
  cycle_body w path m extension interval s = Ret tt s' ->
  watch_files_of w path = IoOk files ->
  count_events (is_removed_event f) (new_events s s') =
  if mem_string f (removed_keys (dict_keys (prev_dir_dict s)) files)
  then 1 else 0.
Proof.
  intros Hwf H Hfiles.
  destruct (cycle_summary _ _ _ _ _ _ _ _ Hwf H Hfiles)
    as [s1 [evs [_ [_ [Hall [_ [_ Hev]]]]]]].
  rewrite Hev, !count_events_app.
  rewrite (scan_events_not_removed _ _ _ Hall), count_removed_in_added.
  rewrite count_removed_map.
  - simpl. unfold count_events. simpl. lia.
  - apply NoDup_filter. apply Hwf.
Qed.

Lemma added_event_count (w : world) (path m extension : option string)
    (interval : Z) (s s' : state) (files : list string) (f : string) :
  wf_state s ->
  cycle_body w path m extension interval s = Ret tt s' ->
  watch_files_of w path = IoOk files ->
  count_events (is_added_event f) (new_events s s') =
  if mem_string f (added_keys (dict_keys (curr_dir_dict s')) (prev_dir_dict s))
  then 1 else 0.
Proof.
  intros Hwf H Hfiles.
  destruct (cycle_summary _ _ _ _ _ _ _ _ Hwf H Hfiles)
    as [s1 [evs [_ [Hs [Hall [Hc [_ Hev]]]]]]].
  rewrite Hev, !count_events_app.
  rewrite (scan_events_not_added _ _ _ Hall), count_added_in_removed.
  rewrite count_added_map.
  - simpl. unfold count_events. simpl. lia.
  - apply NoDup_filter. rewrite Hc. apply dict_keys_fold_del_NoDup.
    apply (scan_steps_NoDup _ _ _ Hs).
    destruct (entry_state_views w s) as [-> _]. apply Hwf.
Qed.

(** ** Removed files (C4) *)

(** A file that the extension filter excludes is outside the snapshot: with
    the filter [.log], [d/a.txt] is present in the first cycle and gone in
    the second; both cycles run to their end and the second logs no removal
    event for it. *)
Example filtered_file_removal_not_logged :
  let s1 := fst (watch_iteration world_txt dir_d magic_foo (Some ".log") 1
                   initial_state) in
  let s2 := fst (watch_iteration world_empty_dir dir_d magic_foo (Some ".log") 1
                   s1) in
  watch_files_of world_txt dir_d = IoOk ["d/a.txt"] /\
  watch_files_of world_empty_dir dir_d = IoOk [] /\
  cycle_body world_txt dir_d magic_foo (Some ".log") 1 initial_state =
    Ret tt s1 /\
  cycle_body world_empty_dir dir_d magic_foo (Some ".log") 1 s1 = Ret tt s2 /\
  count_events (is_removed_event "d/a.txt") (new_events s1 s2) = 0.
Proof. vm_compute. repeat split. Qed.

(** X21: a file that has an entry in the previous-cycle snapshot
    and is missing from the listing of a cycle that runs to its end has its
    entry deleted from the watch state in that cycle, is absent from the
    snapshot taken for the next comparison, and gets exactly one removal
    event. *)
Theorem removed_file_entry_deleted (w : world)
    (path m extension : option string) (interval : Z) (s s' : state)
    (files : list string) (f : string) :
  wf_state s ->
  cycle_body w path m extension interval s = Ret tt s' ->
  watch_files_of w path = IoOk files ->
  In f (dict_keys (prev_dir_dict s)) ->
  ~ In f files ->
  dict_get (curr_dir_dict s') f = None /\
  dict_get (prev_dir_dict s') f = None /\
  count_events (is_removed_event f) (new_events s s') = 1.
Proof.
  intros Hwf H Hfiles Hin Hout.
  assert (Hrk : mem_string f (removed_keys (dict_keys (prev_dir_dict s)) files)
                = true).
  { apply mem_string_In, removed_keys_In. auto. }
  destruct (cycle_summary _ _ _ _ _ _ _ _ Hwf H Hfiles)
    as [s1 [evs [_ [_ [_ [Hc [Hp _]]]]]]].
  assert (Hget : dict_get (curr_dir_dict s') f = None).
  { rewrite Hc, dict_get_fold_del. now rewrite Hrk. }
  split; [exact Hget|]. split; [now rewrite Hp|].
  rewrite (removed_event_count _ _ _ _ _ _ _ _ f Hwf H Hfiles).
  now rewrite Hrk.
Qed.

Lemma removed_file_entry_deleted_witness :
  let s := mkState [("d/f1.txt", 3)] [("d/f1.txt", 3)] false [] [] in
  let s' := fst (watch_iteration world_empty_dir dir_d magic_foo None 1 s) in
  dict_get (curr_dir_dict s') "d/f1.txt" = None /\
  dict_get (prev_dir_dict s') "d/f1.txt" = None /\
  count_events (is_removed_event "d/f1.txt") (new_events s s') = 1.
Proof.
  apply (removed_file_entry_deleted world_empty_dir dir_d magic_foo None 1
           (mkState [("d/f1.txt", 3)] [("d/f1.txt", 3)] false [] [])
           _ [] "d/f1.txt").
  - repeat split; simpl.
    + repeat constructor; simpl; tauto.
    + repeat constructor; simpl; tauto.
    + intros x Hx. exact Hx.
  - reflexivity.
  - reflexivity.
  - simpl. now left.
  - simpl. tauto.
Defined.

(** C4 at the failing input: an empty file [d/empty.txt] (no extension
    filter, so it is part of the snapshot of listed files) is present in the
    first cycle and removed before the second.  Both cycles run to their
    end; the file never had an entry, and the cycle that observes the
    removal logs no removal event for it. *)
Theorem empty_file_removal_not_logged :
  let s1 := fst (watch_iteration world_empty_file dir_d magic_foo None 1
                   initial_state) in
  let s2 := fst (watch_iteration world_empty_dir dir_d magic_foo None 1 s1) in
  watch_files_of world_empty_file dir_d = IoOk ["d/empty.txt"] /\
  passes_filter None "d/empty.txt" = true /\
  watch_files_of world_empty_dir dir_d = IoOk [] /\
  cycle_body world_empty_file dir_d magic_foo None 1 initial_state = Ret tt s1 /\
  cycle_body world_empty_dir dir_d magic_foo None 1 s1 = Ret tt s2 /\
  dict_get (curr_dir_dict s1) "d/empty.txt" = None /\
  count_events (is_removed_event "d/empty.txt") (new_events s1 s2) = 0 /\
  count_events (is_removed_event "d/empty.txt") (trace s2) = 0.
Proof. vm_compute. repeat split. Qed.

(** The scenario of a match followed by a removal: [d/f1.txt] holds the
    magic string on line 3; the first cycle logs the match at line 3 and the
    addition; the file is then deleted, and the next cycle logs its removal
    and scans nothing. *)
Example match_then_removal :
  let s1 := fst (watch_iteration world_f1 dir_d magic_foo None 1 initial_state) in
  let s2 := fst (watch_iteration world_empty_dir dir_d magic_foo None 1 s1) in
  new_events initial_state s1 =
    [LogMatch magic_foo "d/f1.txt" 3; LogAdded "d/f1.txt";
     LogDict [("d/f1.txt", 3)]; Sleep 1] /\
  new_events s1 s2 = [LogRemoved "d/f1.txt"; LogDict []; Sleep 1] /\
  curr_dir_dict s2 = [].
Proof. vm_compute. repeat split. Qed.

(** ** Added files (C3) *)

(** X1: a new file with at least one line, admitted by the filter, gets its
    entry during the scan and exactly one addition event in the cycle that
    first lists it; its line count was looked up as 0 before that scan. *)
Theorem added_file_logged_once (w : world)
    (path m extension : option string) (interval : Z) (s s' : state)
    (files : list string) (f : string) (l : string) (ls : list string) :
  wf_state s ->
  cycle_body w path m extension interval s = Ret tt s' ->
  watch_files_of w path = IoOk files ->
  In f files ->
  passes_filter extension f = true ->
  readlines w f = IoOk (l :: ls) ->
  ~ In f (dict_keys (curr_dir_dict s)) ->
  dict_get_default (curr_dir_dict s) f 0 = 0 /\
  In f (dict_keys (curr_dir_dict s')) /\
  count_events (is_added_event f) (new_events s s') = 1.
Proof.
  intros Hwf H Hfiles Hin Hpass Hread Hnew.
  split.
  { unfold dict_get_default. apply dict_get_None in Hnew. now rewrite Hnew. }
  destruct (cycle_summary _ _ _ _ _ _ _ _ Hwf H Hfiles)
    as [s1 [evs [Hf [_ [_ [Hc [_ _]]]]]]].
  assert (Hin1 : In f (dict_keys (curr_dir_dict s1))).
  { destruct (filter_extension_tracks _ _ _ _ _ _ Hf f Hin Hpass) as [H1|H1];
      [exact H1 | congruence]. }
  assert (Hin' : In f (dict_keys (curr_dir_dict s'))).
  { rewrite Hc. apply dict_keys_fold_del_In. split; [exact Hin1|].
    rewrite removed_keys_In. tauto. }
  split; [exact Hin'|].
  rewrite (added_event_count _ _ _ _ _ _ _ _ f Hwf H Hfiles).
  assert (Hak : mem_string f
            (added_keys (dict_keys (curr_dir_dict s')) (prev_dir_dict s)) = true).
  { apply mem_string_In, added_keys_In. split; [exact Hin'|].
    intros Hp. apply Hnew. now apply Hwf. }
  now rewrite Hak.
Qed.

Lemma added_file_logged_once_witness :
  let s' := fst (watch_iteration world_f1 dir_d magic_foo (Some ".txt") 1
                   initial_state) in
  dict_get_default (curr_dir_dict initial_state) "d/f1.txt" 0 = 0 /\
  In "d/f1.txt" (dict_keys (curr_dir_dict s')) /\
  count_events (is_added_event "d/f1.txt") (new_events initial_state s') = 1.
Proof.
  apply (added_file_logged_once world_f1 dir_d magic_foo (Some ".txt") 1
           initial_state _ ["d/f1.txt"] "d/f1.txt" "a" ["b"; "FOO"]).
  - exact wf_initial.
  - reflexivity.
  - reflexivity.
  - simpl. now left.
  - reflexivity.
  - reflexivity.
  - simpl. tauto.
Defined.

(** C3 at the failing input: an empty file appears in the directory (no
    extension filter).  The cycle that first lists it runs to its end, logs
    no addition event for it and leaves it without an entry; the event comes
    only in a later cycle, once the file has a line. *)
Theorem empty_file_addition_not_logged :
  let s1 := fst (watch_iteration world_empty_file dir_d magic_foo None 1
                   initial_state) in
  let s2 := fst (watch_iteration world_one_line dir_d magic_foo None 1 s1) in
  watch_files_of world_empty_file dir_d = IoOk ["d/empty.txt"] /\
  readlines world_empty_file "d/empty.txt" = IoOk [] /\
  passes_filter None "d/empty.txt" = true /\
  cycle_body world_empty_file dir_d magic_foo None 1 initial_state = Ret tt s1 /\
  count_events (is_added_event "d/empty.txt") (new_events initial_state s1) = 0 /\
  dict_get (curr_dir_dict s1) "d/empty.txt" = None /\
  count_events (is_added_event "d/empty.txt") (new_events s1 s2) = 1.
Proof. vm_compute. repeat split. Qed.

(** ** Two cycles over an unchanged directory (C5) *)

Lemma cycle_body_wf (w : world) (path m extension : option string)
    (interval : Z) (s s' : state) :
  wf_state s ->
  cycle_body w path m extension interval s = Ret tt s' ->
  wf_state s' /\ in_sync s'.
Proof.
  intros Hwf H.
  destruct (cycle_body_ret _ _ _ _ _ _ _ Hwf H)
    as [files [s1 [_ [_ [Hf [_ [Hc [Hp _]]]]]]]].
  pose proof (filter_extension_steps w m extension files (entry_state w s)) as Hs.
  rewrite Hf in Hs. simpl in Hs.
  assert (Hnd : NoDup (dict_keys (curr_dir_dict s'))).
  { rewrite Hc. apply dict_keys_fold_del_NoDup.
    apply (scan_steps_NoDup _ _ _ Hs).
    destruct (entry_state_views w s) as [-> _]. apply Hwf. }
  unfold wf_state, in_sync. rewrite Hp.
  repeat split; try assumption. intros x Hx. exact Hx.
Qed.

(** X2: when the watch state agrees with the previous-cycle snapshot (as at
    start-up and after every cycle that ran to its end), two full cycles
    over the same listing and the same file contents log no addition and no
    removal event in the second. *)
Theorem unchanged_directory_no_events (w1 w2 : world)
    (path m extension : option string) (interval : Z) (s s1 s2 : state)
    (files : list string) (f : string) :
  wf_state s -> in_sync s ->
  watch_files_of w1 path = IoOk files ->
  watch_files_of w2 path = IoOk files ->
  (forall g, readlines w2 g = readlines w1 g) ->
  cycle_body w1 path m extension interval s = Ret tt s1 ->
  cycle_body w2 path m extension interval s1 = Ret tt s2 ->
  count_events (is_added_event f) (new_events s1 s2) = 0 /\
  count_events (is_removed_event f) (new_events s1 s2) = 0.
Proof.
  intros Hwf Hsync Hf1 Hf2 Hread H1 H2.
  destruct (cycle_body_wf _ _ _ _ _ _ _ Hwf H1) as [Hwf1 Hsync1].
  destruct (cycle_summary _ _ _ _ _ _ _ _ Hwf H1 Hf1)
    as [t1 [evs1 [Hfe1 [Hs1 [_ [Hc1 [Hp1 _]]]]]]].
  destruct (cycle_summary _ _ _ _ _ _ _ _ Hwf1 H2 Hf2)
    as [t2 [evs2 [Hfe2 [Hs2 [_ [Hc2 [Hp2 _]]]]]]].
  destruct (entry_state_views w1 s) as [Hec1 _].
  destruct (entry_state_views w2 s1) as [Hec2 _].
  (* after the first cycle every key is a listed file *)
  assert (Hkeys1 : forall k, In k (dict_keys (curr_dir_dict s1)) -> In k files).
  { intros k Hk. rewrite Hc1 in Hk. apply dict_keys_fold_del_In in Hk.
    destruct Hk as [Hk Hnr].
    destruct (in_dec string_dec k files) as [Hin|Hout]; [exact Hin|].
    exfalso. apply Hnr, removed_keys_In. split; [|exact Hout].
    destruct (scan_steps_keys _ _ _ Hs1 k Hk) as [Hk0|[Hk0 _]];
      [|contradiction].
    rewrite Hec1 in Hk0. unfold in_sync in Hsync. now rewrite Hsync. }
  (* so the second cycle removes nothing *)
  assert (Hrk2 : removed_keys (dict_keys (prev_dir_dict s1)) files = []).
  { destruct (removed_keys (dict_keys (prev_dir_dict s1)) files) as [|k ks] eqn:E;
      [reflexivity|].
    assert (Hk : In k (removed_keys (dict_keys (prev_dir_dict s1)) files))
      by (rewrite E; now left).
    apply removed_keys_In in Hk. destruct Hk as [Hk Hout].
    rewrite Hp1 in Hk. exfalso. auto. }
  (* and its scan creates no entry *)
  assert (Hsame : dict_keys (curr_dir_dict t2) = dict_keys (curr_dir_dict s1)).
  { pose proof (filter_extension_same_keys w2 m extension files
                  (entry_state w2 s1)) as Hk.
    rewrite Hfe2 in Hk. simpl in Hk. rewrite Hec2 in Hk. apply Hk.
    intros g Hg Hpass.
    destruct (filter_extension_tracks _ _ _ _ _ _ Hfe1 g Hg Hpass) as [Hin|Hemp].
    - left. rewrite Hc1. apply dict_keys_fold_del_In. split; [exact Hin|].
      rewrite removed_keys_In. tauto.
    - right. now rewrite Hread. }
  assert (Hc2' : dict_keys (curr_dir_dict s2) = dict_keys (prev_dir_dict s1)).
  { rewrite Hc2, Hrk2. simpl. now rewrite Hsame, Hp1. }
  split.
  - rewrite (added_event_count _ _ _ _ _ _ _ _ f Hwf1 H2 Hf2).
    destruct (mem_string f _) eqn:E; [|reflexivity].
    apply mem_string_In, added_keys_In in E. rewrite Hc2' in E. tauto.
  - rewrite (removed_event_count _ _ _ _ _ _ _ _ f Hwf1 H2 Hf2).
    now rewrite Hrk2.
Qed.

Lemma unchanged_directory_no_events_witness :
  let s1 := fst (watch_iteration world_f1 dir_d magic_foo None 1 initial_state) in
  let s2 := fst (watch_iteration world_f1_signal dir_d magic_foo None 1 s1) in
  count_events (is_added_event "d/f1.txt") (new_events s1 s2) = 0 /\
  count_events (is_removed_event "d/f1.txt") (new_events s1 s2) = 0.
Proof.
  apply (unchanged_directory_no_events world_f1 world_f1_signal dir_d magic_foo
           None 1 initial_state _ _ ["d/f1.txt"] "d/f1.txt").
  - exact wf_initial.
  - reflexivity.
  - reflexivity.
  - reflexivity.
  - intros g. reflexivity.
  - reflexivity.
  - reflexivity.
Defined.

(** C5 at the failing input.  Iteration 0 lists [d/x.txt] and [d/y.txt],
    scans [d/x.txt] and is aborted because [d/y.txt] has vanished; then
    [d/x.txt] is deleted too.  Iterations 1 and 2 are full cycles over the
    same, empty, directory: the first logs an addition of [d/x.txt], the
    second a removal of it. *)
Theorem stale_entry_removed_on_second_cycle :
  let s0 := fst (watch_iteration world_race dir_d magic_foo None 1
                   initial_state) in
  let s1 := fst (watch_iteration world_empty_dir dir_d magic_foo None 1 s0) in
  let s2 := fst (watch_iteration world_empty_dir dir_d magic_foo None 1 s1) in
  curr_dir_dict s0 = [("d/x.txt", 1)] /\ prev_dir_dict s0 = [] /\
  cycle_body world_empty_dir dir_d magic_foo None 1 s0 = Ret tt s1 /\
  cycle_body world_empty_dir dir_d magic_foo None 1 s1 = Ret tt s2 /\
  count_events (is_added_event "d/x.txt") (new_events s0 s1) = 1 /\
  count_events (is_removed_event "d/x.txt") (new_events s1 s2) = 1.
Proof. vm_compute. repeat split. Qed.

(** ** A file that cannot be opened (C1) *)

Lemma filter_extension_app (w : world) (m extension : option string)
    (l1 l2 : list string) (s : state) :
  filter_extension w m extension (l1 ++ l2) s =
  match filter_extension w m extension l1 s with
  | Ret _ s' => filter_extension w m extension l2 s'
  | Raise e s' => Raise e s'
  end.
Proof.
  revert s. induction l1 as [|file rest IH]; intros s.
  - reflexivity.
  - cbn [filter_extension app].
    set (X := if passes_filter extension file then _ else ret tt).
    unfold bind. rewrite deliver_eq.
    destruct (X (deliver_state w (AtFile file) s)) as [[] s1|e s1];
      [apply IH | reflexivity].
Qed.

Lemma scan_lines_ret (w : world) (f mm : string) (contents : list string)
    (indices : list nat) (s : state) :
  exists s', scan_lines w f (Some mm) contents indices s = Ret tt s'.
Proof.
  revert s. induction indices as [|index rest IH]; intros s; simpl.
  - now exists s.
  - unfold bind at 1. rewrite deliver_eq. unfold bind at 1, modify at 1.
    destruct (is_substring mm (nth index contents "")).
    + unfold modify. eauto.
    + apply IH.
Qed.

Lemma filter_extension_readable (w : world) (mm : string)
    (extension : option string) (files : list string) (s : state) :
  (forall g, In g files -> passes_filter extension g = true ->
             exists lines, readlines w g = IoOk lines) ->
  exists s', filter_extension w (Some mm) extension files s = Ret tt s'.
Proof.
  revert s. induction files as [|file rest IH]; intros s H; simpl.
  - now exists s.
  - unfold bind at 1. rewrite deliver_eq. unfold bind at 1.
    assert (Hrest : forall s1, exists s',
              filter_extension w (Some mm) extension rest s1 = Ret tt s').
    { intros s1. apply IH. intros g Hg. apply H. now right. }
    destruct (passes_filter extension file) eqn:Hpass.
    + destruct (H file (or_introl eq_refl) Hpass) as [lines Hl].
      unfold bind at 1, gets at 1, search_for_magic, bind at 1.
      rewrite Hl. unfold lift_io, ret at 1.
      destruct (scan_lines_ret w file mm ("" :: lines)
                  (seq (dict_get_default
                          (curr_dir_dict (deliver_state w (AtFile file) s))
                          file 0 + 1)
                       (List.length ("" :: lines) -
                        (dict_get_default
                           (curr_dir_dict (deliver_state w (AtFile file) s))
                           file 0 + 1)))
                  (deliver_state w (AtFile file) s)) as [s1 Hs1].
      rewrite Hs1. apply Hrest.
    + unfold ret at 1. apply Hrest.
Qed.

Lemma truthy_Some (x : option string) :
  truthy x = true -> exists c r, x = Some (String c r).
Proof. destruct x as [[|c r]|]; simpl; try discriminate. eauto. Qed.

(** C1, as stated, fails: [d/a.txt] is listed but has vanished when it is
    opened.  The exception leaves the [try] block: the cycle is aborted,
    [d/b.txt] (which holds the magic string on line 1) is not scanned, and
    the only events are the directory-not-found error and the 5-second
    sleep. *)
Lemma vanished_file_aborts_cycle_counterexample :
  let r := watch_iteration world_vanished dir_d magic_foo None 1 initial_state in
  watch_files_of world_vanished dir_d = IoOk ["d/a.txt"; "d/b.txt"] /\
  readlines world_vanished "d/a.txt" = IoNotFound /\
  readlines world_vanished "d/b.txt" = IoOk ["FOO"] /\
  cycle_body world_vanished dir_d magic_foo None 1 initial_state =
    Raise FileNotFoundError initial_state /\
  dict_get (curr_dir_dict (fst r)) "d/b.txt" = None /\
  count_events (is_match_event "d/b.txt") (trace (fst r)) = 0 /\
  trace (fst r) = [LogDirNotFound dir_d; Sleep 5] /\
  trace (final_state
           (search_for_magic world_vanished "d/b.txt" 1 magic_foo initial_state))
  = [LogMatch magic_foo "d/b.txt" 1].
Proof. vm_compute. repeat split. Qed.

(** C1 (amended): when a listed file that the filter admits cannot be read,
    the exception leaves the scan and reaches the loop's handlers: the cycle
    is aborted.  The files listed before it have been scanned (the
    dictionary and the match events are exactly those of the scan of these
    files), the files after it are not, and the diff passes and the
    snapshot update are skipped.  One error message is logged.  If the file
    no longer exists, the loop then sleeps 5 seconds and goes on to the next
    iteration; any other read error is logged as an unexpected error and
    ends the loop. *)
Theorem unreadable_file_aborts_cycle (w : world)
    (path m extension : option string) (interval : Z) (s : state)
    (pre post : list string) (f : string) :
  valid_config path m extension ->
  watch_files_of w path = IoOk (pre ++ f :: post) ->
  (forall g, In g pre -> passes_filter extension g = true ->
             exists lines, readlines w g = IoOk lines) ->
  passes_filter extension f = true ->
  (forall lines, readlines w f <> IoOk lines) ->
  let r := watch_iteration w path m extension interval s in
  exists s1 hevs,
    filter_extension w m extension pre (entry_state w s) = Ret tt s1 /\
    curr_dir_dict (fst r) = curr_dir_dict s1 /\
    prev_dir_dict (fst r) = prev_dir_dict s /\
    new_events s (fst r) = new_events s s1 ++ hevs /\
    Forall (is_scan_event (fun g => In g pre)) (new_events s s1) /\
    count_events is_error_event hevs = 1 /\
    (readlines w f = IoNotFound ->
     (exists e, hevs = [e; Sleep 5]) /\ snd r = Continue) /\
    (forall name, readlines w f = IoError name ->
     hevs = [LogUnexpected name] /\ snd r = Break) /\
    (forall g, ~ In g pre ->
               dict_get (curr_dir_dict (fst r)) g = dict_get (curr_dir_dict s) g).
Proof.
  intros Hvalid Hfiles Hpre Hpass Hread.
  destruct (truthy_Some m (proj1 Hvalid)) as [c [mr ->]].
  destruct (filter_extension_readable w (String c mr) extension pre
              (entry_state w s) Hpre) as [s1 Hs1].
  pose proof (filter_extension_steps w (Some (String c mr)) extension pre
                (entry_state w s)) as Hsteps.
  rewrite Hs1 in Hsteps. simpl in Hsteps.
  assert (Hsteps' : scan_steps (fun g => In g pre) (entry_state w s) s1).
  { eapply scan_steps_weaken; [|exact Hsteps]. simpl. tauto. }
  assert (Hbody : cycle_body w path (Some (String c mr)) extension interval s =
                  match readlines w f with
                  | IoOk _ => Ret tt s
                  | IoNotFound =>
                      Raise FileNotFoundError (deliver_state w (AtFile f) s1)
                  | IoError name =>
                      Raise (OtherError name) (deliver_state w (AtFile f) s1)
                  end).
  { unfold cycle_body. unfold bind at 1. rewrite deliver_eq.
    unfold bind at 1. rewrite alert_user_valid by assumption.
    unfold bind at 1. rewrite deliver_eq.
    fold (entry_state w s).
    unfold bind at 1. rewrite Hfiles. unfold lift_io at 1, ret at 1.
    unfold bind at 1. rewrite filter_extension_app, Hs1. simpl.
    unfold bind at 1. rewrite deliver_eq.
    unfold bind at 1. rewrite Hpass.
    unfold bind at 1, gets at 1, search_for_magic, bind at 1.
    destruct (readlines w f) as [lines| |name]; [|reflexivity|reflexivity].
    exfalso. now apply (Hread lines). }
  destruct (entry_state_views w s) as [Hec [Hep Het]].
  destruct (scan_steps_trace _ _ _ Hsteps') as [evs [Ht Hall]].
  rewrite Het in Ht.
  assert (Hnew1 : new_events s s1 = evs) by now apply new_events_app.
  cbv zeta. unfold watch_iteration. rewrite Hbody.
  destruct (readlines w f) as [lines| |name] eqn:Hr.
  - exfalso. now apply (Hread lines).
  - exists s1, [LogDirNotFound path; Sleep 5].
    cbn [handle_exception fst snd emit trace curr_dir_dict prev_dir_dict].
    rewrite deliver_state_curr, deliver_state_prev, Hnew1.
    split; [exact Hs1|]. split; [reflexivity|].
    split; [rewrite (scan_steps_prev _ _ _ Hsteps'); exact Hep|].
    split.
    { apply new_events_app. cbn [emit trace].
      rewrite deliver_state_trace, Ht. now rewrite <- !app_assoc. }
    split; [exact Hall|]. split; [reflexivity|].
    split; [intros _; split; [eauto | reflexivity]|].
    split; [discriminate|].
    intros g Hg. rewrite (scan_steps_other _ _ _ Hsteps' g Hg). now rewrite Hec.
  - exists s1, [LogUnexpected name].
    cbn [handle_exception fst snd emit trace curr_dir_dict prev_dir_dict].
    rewrite deliver_state_curr, deliver_state_prev, Hnew1.
    split; [exact Hs1|]. split; [reflexivity|].
    split; [rewrite (scan_steps_prev _ _ _ Hsteps'); exact Hep|].
    split.
    { apply new_events_app. cbn [emit trace].
      rewrite deliver_state_trace, Ht. now rewrite <- !app_assoc. }
    split; [exact Hall|]. split; [reflexivity|].
    split; [discriminate|].
    split; [intros name' [= <-]; split; reflexivity|].
    intros g Hg. rewrite (scan_steps_other _ _ _ Hsteps' g Hg). now rewrite Hec.
Qed.

Lemma unreadable_file_aborts_cycle_witness :
  let r := watch_iteration world_race dir_d magic_foo None 1 initial_state in
  exists s1 hevs,
    filter_extension world_race magic_foo None ["d/x.txt"]
      (entry_state world_race initial_state) = Ret tt s1 /\
    curr_dir_dict (fst r) = curr_dir_dict s1 /\
    prev_dir_dict (fst r) = prev_dir_dict initial_state /\
    new_events initial_state (fst r) = new_events initial_state s1 ++ hevs /\
    Forall (is_scan_event (fun g => In g ["d/x.txt"]))
           (new_events initial_state s1) /\
    count_events is_error_event hevs = 1 /\
    (readlines world_race "d/y.txt" = IoNotFound ->
     (exists e, hevs = [e; Sleep 5]) /\ snd r = Continue) /\
    (forall name, readlines world_race "d/y.txt" = IoError name ->
     hevs = [LogUnexpected name] /\ snd r = Break) /\
    (forall g, ~ In g ["d/x.txt"] ->
               dict_get (curr_dir_dict (fst r)) g =
               dict_get (curr_dir_dict initial_state) g).
Proof.
  apply (unreadable_file_aborts_cycle world_race dir_d magic_foo None 1
           initial_state ["d/x.txt"] [] "d/y.txt").
  - unfold valid_config. simpl. auto.
  - reflexivity.
  - intros g [<-|[]] _. exists ["hello"]. reflexivity.
  - reflexivity.
  - intros lines. discriminate.
Defined.

(** A read error other than file-not-found ends the loop. *)
Example permission_denied_ends_loop :
  watch_directory 10 (fun _ => world_denied) 0 dir_d magic_foo None 1
    initial_state =
  (mkState [("d/x.txt", 1)] [] false [LogUnexpected "PermissionError"] [],
   Exited).
Proof. reflexivity. Qed.

(** ** The line scanner (C2) *)

Lemma scan_lines_first_match (w : world) (f mm : string)
    (contents : list string) (N : nat) :
  is_substring mm (nth N contents "") = true ->
  forall (k a n : nat) (s : state),
    a + k = N ->
    k < n ->
    (forall j, a <= j -> j < N -> is_substring mm (nth j contents "") = false) ->
    exists s',
      scan_lines w f (Some mm) contents (seq a n) s = Ret tt s' /\
      trace s' = trace s ++ [LogMatch (Some mm) f N] /\
      curr_dir_dict s' = dict_set (curr_dir_dict s) f N /\
      prev_dir_dict s' = prev_dir_dict s.
Proof.
  intros Hmatch. induction k as [|k IH]; intros a n s Ha Hn Hno.
  - rewrite Nat.add_0_r in Ha. subst a.
    destruct n as [|n]; [lia|]. simpl.
    unfold bind at 1. rewrite deliver_eq. unfold bind at 1, modify at 1.
    rewrite Hmatch. unfold modify. eexists. split; [reflexivity|].
    simpl. now rewrite deliver_state_trace, deliver_state_curr,
      deliver_state_prev.
  - destruct n as [|n]; [lia|]. simpl.
    unfold bind at 1. rewrite deliver_eq. unfold bind at 1, modify at 1.
    rewrite (Hno a) by lia.
    destruct (IH (S a) n
                (set_curr (dict_set (curr_dir_dict
                                       (deliver_state w (AtLine f a) s)) f a)
                          (deliver_state w (AtLine f a) s)))
      as [s' [Hr [Ht [Hc Hp]]]]; [lia | lia | intros j Hj1 Hj2; apply Hno; lia |].
    exists s'. split; [exact Hr|].
    simpl in Ht, Hc, Hp.
    rewrite deliver_state_trace in Ht. rewrite deliver_state_curr in Hc.
    rewrite deliver_state_prev in Hp. rewrite dict_set_set in Hc. auto.
Qed.

Lemma scan_lines_events (w : world) (f : string) (m : option string)
    (contents : list string) (indices : list nat) (s : state) :
  let s' := final_state (scan_lines w f m contents indices s) in
  trace s' = trace s \/
  exists k, In k indices /\ trace s' = trace s ++ [LogMatch m f k].
Proof.
  revert s. induction indices as [|index rest IH]; intros s; simpl.
  - now left.
  - rewrite final_state_bind, deliver_eq, final_state_bind. unfold modify at 1.
    destruct (py_in m (nth index contents "")) as [[|]|]; simpl.
    + right. exists index. rewrite deliver_state_trace. auto.
    + destruct (IH (set_curr (dict_set (curr_dir_dict
                      (deliver_state w (AtLine f index) s)) f index)
                      (deliver_state w (AtLine f index) s))) as [Ht|[k [Hk Ht]]];
        simpl in Ht; rewrite deliver_state_trace in Ht.
      * now left.
      * right. exists k. auto.
    + left. now rewrite deliver_state_trace.
Qed.

(** Every event of a scan is a match on a line at or after its start. *)
Lemma search_for_magic_events (w : world) (f : string) (m : option string)
    (start_line : nat) (s : state) (e : event) :
  In e (new_events s (final_state (search_for_magic w f start_line m s))) ->
  exists k, e = LogMatch m f k /\ start_line <= k.
Proof.
  unfold search_for_magic. rewrite final_state_bind.
  destruct (readlines w f) as [lines| |name]; unfold lift_io, ret, raise.
  - destruct (scan_lines_events w f m ("" :: lines)
                (seq start_line (List.length ("" :: lines) - start_line)) s)
      as [Ht|[k [Hk Ht]]].
    + rewrite (new_events_app s _ []) by now rewrite app_nil_r. intros [].
    + rewrite (new_events_app s _ _ Ht). intros [<-|[]].
      exists k. split; [reflexivity|]. apply in_seq in Hk. lia.
  - rewrite (new_events_app s s []) by now rewrite app_nil_r. intros [].
  - rewrite (new_events_app s s []) by now rewrite app_nil_r. intros [].
Qed.

(** C2, as stated, fails when the magic string also occurs between the
    start of the scan and line N: with ["FOO"] on lines 1 and 2 and N = 2, a
    scan that starts at line 1 reports line 1 and stops there. *)
Lemma earlier_occurrence_counterexample :
  let s' := final_state
              (search_for_magic world_twice "d/f.txt" 1 magic_foo initial_state) in
  readlines world_twice "d/f.txt" = IoOk ["FOO"; "FOO"] /\
  py_in magic_foo (nth 2 ["" ; "FOO"; "FOO"] "") = Some true /\
  1 <= 2 /\
  new_events initial_state s' = [LogMatch magic_foo "d/f.txt" 1] /\
  dict_get (curr_dir_dict s') "d/f.txt" = Some 1.
Proof. vm_compute. repeat split. repeat constructor. Qed.

(** C2 (amended): if line N is the first line at or after the start of the
    scan that contains the magic string, the scan reports a match at line N,
    logs exactly that one event, and leaves N as the resume point, so that
    the next scan of the file starts at line N + 1; and a scan that starts
    after line N, whatever the file then holds, reports only lines after
    N. *)
Theorem first_match_reported_once (w : world) (f mm : string)
    (lines : list string) (start_line N : nat) (s : state) :
  readlines w f = IoOk lines ->
  start_line <= N ->
  N <= List.length lines ->
  is_substring mm (nth N ("" :: lines) "") = true ->
  (forall j, start_line <= j -> j < N ->
             is_substring mm (nth j ("" :: lines) "") = false) ->
  exists s',
    search_for_magic w f start_line (Some mm) s = Ret tt s' /\
    new_events s s' = [LogMatch (Some mm) f N] /\
    dict_get (curr_dir_dict s') f = Some N /\
    dict_get_default (curr_dir_dict s') f 0 + 1 = N + 1 /\
    (forall (w2 : world) (start2 : nat) (s2 : state) (e : event),
        N < start2 ->
        In e (new_events s2
                (final_state (search_for_magic w2 f start2 (Some mm) s2))) ->
        exists k, e = LogMatch (Some mm) f k /\ N < k).
Proof.
  intros Hread Hstart HN Hmatch Hno.
  destruct (scan_lines_first_match w f mm ("" :: lines) N Hmatch
              (N - start_line) start_line
              (List.length ("" :: lines) - start_line) s)
    as [s' [Hr [Ht [Hc _]]]];
    [lia | cbn [List.length]; lia | exact Hno |].
  exists s'.
  assert (Hget : dict_get (curr_dir_dict s') f = Some N).
  { rewrite Hc. apply dict_get_set_same. }
  split; [|split; [|split; [|split]]].
  - unfold search_for_magic, bind. rewrite Hread. exact Hr.
  - now apply new_events_app.
  - exact Hget.
  - unfold dict_get_default. now rewrite Hget.
  - intros w2 start2 s2 e Hlt He.
    destruct (search_for_magic_events _ _ _ _ _ _ He) as [k [-> Hk]].
    exists k. split; [reflexivity | lia].
Qed.

Lemma first_match_reported_once_witness :
  exists s',
    search_for_magic world_f1 "d/f1.txt" 1 (Some "FOO") initial_state =
      Ret tt s' /\
    new_events initial_state s' = [LogMatch (Some "FOO") "d/f1.txt" 3] /\
    dict_get (curr_dir_dict s') "d/f1.txt" = Some 3 /\
    dict_get_default (curr_dir_dict s') "d/f1.txt" 0 + 1 = 3 + 1 /\
    (forall (w2 : world) (start2 : nat) (s2 : state) (e : event),
        3 < start2 ->
        In e (new_events s2
                (final_state
                   (search_for_magic w2 "d/f1.txt" start2 (Some "FOO") s2))) ->
        exists k, e = LogMatch (Some "FOO") "d/f1.txt" k /\ 3 < k).
Proof.
  apply (first_match_reported_once world_f1 "d/f1.txt" "FOO" ["a"; "b"; "FOO"]
           1 3 initial_state).
  - reflexivity.
  - lia.
  - simpl. lia.
  - reflexivity.
  - intros j H1 H2.
    destruct j as [|[|[|j]]]; [lia | reflexivity | reflexivity | lia].
Defined.

(** ** Line counts never decrease (C6) *)

Lemma time_sleep_final (secs : Z) (s : state) :
  curr_dir_dict (final_state (time_sleep secs s)) = curr_dir_dict s.
Proof.
  unfold time_sleep. now destruct (secs <? 0)%Z, (9223372037 <=? secs)%Z.
Qed.

(** An entry that the removal pass makes disappear belonged to a key of
    the snapshot that is missing from the listing. *)
Lemma detect_removed_loop_lost (keys files : list string) (s : state)
    (k : string) (n : nat) :
  dict_get (curr_dir_dict s) k = Some n ->
  dict_get (curr_dir_dict (final_state (detect_removed_loop keys files s))) k
    = None ->
  In k keys /\ ~ In k files.
Proof.
  revert s. induction keys as [|file rest IH]; intros s Hk Hnone; simpl in Hnone.
  - congruence.
  - rewrite final_state_bind in Hnone.
    destruct (mem_string file files) eqn:Hmem.
    + unfold ret at 1 in Hnone.
      destruct (IH s Hk Hnone) as [Hin Hout]. split; [now right | exact Hout].
    + rewrite removed_step_eq in Hnone.
      destruct (dict_mem (curr_dir_dict s) file); simpl in Hnone; [|congruence].
      destruct (string_dec k file) as [->|Hne].
      * split; [now left | now apply mem_string_not_In].
      * assert (Hk' : dict_get (curr_dir_dict
                        (emit (LogRemoved file)
                           (set_curr (dict_del (curr_dir_dict s) file) s))) k
                      = Some n).
        { simpl. now rewrite dict_get_del_other. }
        destruct (IH _ Hk' Hnone) as [Hin Hout].
        split; [now right | exact Hout].
Qed.

(** Whatever its outcome, a cycle is a scanning phase, followed or not by
    the removal pass; nothing else touches the entries. *)
Lemma cycle_body_shape (w : world) (path m extension : option string)
    (interval : Z) (s : state) :
  exists s1,
    scan_steps (fun _ => True) s s1 /\
    (curr_dir_dict (final_state (cycle_body w path m extension interval s)) =
       curr_dir_dict s1 \/
     exists files,
       watch_files_of w path = IoOk files /\
       curr_dir_dict (final_state (cycle_body w path m extension interval s)) =
       curr_dir_dict
         (final_state
            (detect_removed_loop (dict_keys (prev_dir_dict s1)) files s1))).
Proof.
  unfold cycle_body.
  rewrite final_state_bind, deliver_eq.
  set (s0 := deliver_state w AtValidate s).
  assert (H0 : scan_steps (fun _ => True) s s0) by apply deliver_steps.
  rewrite final_state_bind.
  pose proof (alert_user_final path m extension s0) as Ha.
  destruct (alert_user path m extension s0) as [[] sa|e sa]; simpl in Ha; subst sa;
    [|exists s0; auto].
  rewrite final_state_bind, deliver_eq.
  set (s0' := deliver_state w AtListing s0).
  assert (H0' : scan_steps (fun _ => True) s s0').
  { eapply scan_steps_trans; [exact H0 | apply deliver_steps]. }
  rewrite final_state_bind.
  destruct (watch_files_of w path) as [files| |name]; unfold lift_io, ret, raise;
    [|exists s0'; auto|exists s0'; auto].
  rewrite final_state_bind.
  pose proof (filter_extension_steps w m extension files s0') as Hs.
  assert (H1 : scan_steps (fun _ => True) s
                 (final_state (filter_extension w m extension files s0'))).
  { eapply scan_steps_trans; [exact H0'|].
    eapply scan_steps_weaken; [|exact Hs]. auto. }
  destruct (filter_extension w m extension files s0') as [[] s1|e s1];
    simpl in H1; [|exists s1; auto].
  rewrite final_state_bind, deliver_eq.
  set (s2 := deliver_state w AtDiff s1).
  exists s2. split.
  { eapply scan_steps_trans; [exact H1 | apply deliver_steps]. }
  right. exists files. split; [reflexivity|].
  rewrite final_state_bind. unfold gets at 1.
  rewrite final_state_bind. unfold detect_removed_files.
  destruct (detect_removed_loop (dict_keys (prev_dir_dict s2)) files s2)
    as [[] s3|e s3]; [|reflexivity].
  rewrite final_state_bind. unfold gets at 1.
  rewrite final_state_bind, detect_added_files_eq.
  rewrite final_state_bind. unfold gets at 1.
  rewrite final_state_bind. unfold modify at 1.
  rewrite final_state_bind. unfold modify at 1.
  rewrite final_state_bind, deliver_eq.
  rewrite time_sleep_final, deliver_state_curr. reflexivity.
Qed.

Lemma watch_iteration_curr (w : world) (path m extension : option string)
    (interval : Z) (s : state) :
  curr_dir_dict (fst (watch_iteration w path m extension interval s)) =
  curr_dir_dict (final_state (cycle_body w path m extension interval s)).
Proof.
  unfold watch_iteration.
  destruct (cycle_body w path m extension interval s) as [[] s'|e s'];
    [reflexivity|].
  now destruct e.
Qed.

(** C6: over one iteration of the loop, whatever its outcome and whatever
    signals arrive, the line count stored for a tracked path does not
    decrease as long as the path keeps its entry.  The entry disappears only
    when the path, recorded in the previous-cycle snapshot, is missing from
    the directory listing (the file was removed); from then on the path is
    looked up as 0 again, so a re-added file is scanned from its first
    line. *)
Theorem line_count_never_decreases (w : world)
    (path m extension : option string) (interval : Z) (s : state)
    (f : string) (n : nat) :
  dict_get (curr_dir_dict s) f = Some n ->
  let s' := fst (watch_iteration w path m extension interval s) in
  (forall n', dict_get (curr_dir_dict s') f = Some n' -> n <= n') /\
  (dict_get (curr_dir_dict s') f = None ->
   (exists files, watch_files_of w path = IoOk files /\ ~ In f files) /\
   In f (dict_keys (prev_dir_dict s)) /\
   dict_get_default (curr_dir_dict s') f 0 = 0).
Proof.
  intros Hn. cbv zeta. rewrite watch_iteration_curr.
  destruct (cycle_body_shape w path m extension interval s)
    as [s1 [Hs Hshape]].
  destruct (scan_steps_grow _ _ _ Hs f n Hn) as [n1 [Hn1 Hle]].
  split.
  - intros n' Hn'.
    destruct Hshape as [Hc|[files [_ Hc]]]; rewrite Hc in Hn'.
    + congruence.
    + apply (detect_removed_loop_shrink _ files s1) in Hn'. congruence.
  - intros Hnone.
    destruct Hshape as [Hc|[files [Hfiles Hc]]]; rewrite Hc in Hnone.
    + congruence.
    + destruct (detect_removed_loop_lost _ _ _ _ _ Hn1 Hnone) as [Hin Hout].
      rewrite (scan_steps_prev _ _ _ Hs) in Hin.
      split; [exists files; auto|]. split; [exact Hin|].
      unfold dict_get_default. now rewrite Hc, Hnone.
Qed.

Lemma line_count_never_decreases_witness :
  let s := mkState [("d/f1.txt", 1)] [("d/f1.txt", 1)] false [] [] in
  let s' := fst (watch_iteration world_f1 dir_d magic_foo None 1 s) in
  (forall n', dict_get (curr_dir_dict s') "d/f1.txt" = Some n' -> 1 <= n') /\
  (dict_get (curr_dir_dict s') "d/f1.txt" = None ->
   (exists files, watch_files_of world_f1 dir_d = IoOk files /\
                  ~ In "d/f1.txt" files) /\
   In "d/f1.txt" (dict_keys (prev_dir_dict s)) /\
   dict_get_default (curr_dir_dict s') "d/f1.txt" 0 = 0).
Proof.
  apply (line_count_never_decreases world_f1 dir_d magic_foo None 1
           (mkState [("d/f1.txt", 1)] [("d/f1.txt", 1)] false [] [])
           "d/f1.txt" 1).
  reflexivity.
Defined.

(** A file that grows by a line between two cycles: the count goes from 3
    to 4; when the file is then removed the entry goes, and the lookup is 0
    again. *)
Example line_count_grows_then_restarts :
  let s1 := fst (watch_iteration world_f1 dir_d magic_foo None 1 initial_state) in
  let s2 := fst (watch_iteration
                   (world_of [("d/f1.txt", ["a"; "b"; "FOO"; "c"])])
                   dir_d magic_foo None 1 s1) in
  let s3 := fst (watch_iteration world_empty_dir dir_d magic_foo None 1 s2) in
  dict_get (curr_dir_dict s1) "d/f1.txt" = Some 3 /\
  dict_get (curr_dir_dict s2) "d/f1.txt" = Some 4 /\
  dict_get (curr_dir_dict s3) "d/f1.txt" = None /\
  dict_get_default (curr_dir_dict s3) "d/f1.txt" 0 = 0.
Proof. vm_compute. repeat split. Qed.

(** ** Invalid configuration (C7) *)

(** X3: a missing magic string, an extension with a first character other than
    a dot, and a missing directory each end the loop in its first pass: one
    configuration error is logged, nothing is scanned, nothing sleeps. *)
Theorem invalid_config_terminates (fuel : nat) (ws : nat -> world) (k : nat)
    (path m extension : option string) (interval : Z) (s : state) :
  exit_program s = false ->
  extension <> Some "" ->
  ~ valid_config path m extension ->
  exists ev,
    is_config_error_event ev = true /\
    watch_directory (S fuel) ws k path m extension interval s =
      (emit ev (deliver_state (ws k) AtValidate s), Exited).
Proof.
  intros Hexit Hext Hinv. simpl. rewrite Hexit.
  unfold watch_iteration, cycle_body.
  unfold bind at 1. rewrite deliver_eq. unfold bind at 1.
  set (s0 := deliver_state (ws k) AtValidate s).
  unfold alert_user, bind at 1 2.
  destruct (truthy m) eqn:Hm; simpl.
  2:{ exists LogNoMagic. auto. }
  destruct extension as [[|c e]|]; simpl.
  - congruence.
  - destruct (Ascii.eqb_spec c ".") as [->|Hc]; simpl.
    + destruct (truthy path) eqn:Hp; simpl.
      * exfalso. apply Hinv. unfold valid_config. eauto 6.
      * exists LogNoDirectory. auto.
    + exists (LogBadExtension (Some (String c e))). auto.
  - destruct (truthy path) eqn:Hp; simpl.
    + exfalso. apply Hinv. unfold valid_config. auto.
    + exists LogNoDirectory. auto.
Qed.

Lemma invalid_config_terminates_witness :
  exists ev,
    is_config_error_event ev = true /\
    watch_directory 4 (fun _ => world_f1) 0 dir_d (Some "") None 1 initial_state =
      (emit ev (deliver_state world_f1 AtValidate initial_state), Exited).
Proof.
  apply (invalid_config_terminates 3 (fun _ => world_f1) 0 dir_d (Some "") None 1
           initial_state).
  - reflexivity.
  - discriminate.
  - intros [H _]. discriminate H.
Defined.

(** C7 at the failing input: the extension filter is the empty string
    (which does not begin with a dot).  [extension[0]] raises [IndexError];
    the loop ends in its first pass, but what it logs is the unexpected-error
    message, not a configuration error. *)
Theorem empty_extension_not_config_error :
  let r := watch_directory 4 (fun _ => world_f1) 0 dir_d magic_foo (Some "") 1
             initial_state in
  alert_user dir_d magic_foo (Some "") initial_state =
    Raise (OtherError "IndexError") initial_state /\
  snd r = Exited /\
  trace (fst r) = [LogUnexpected "IndexError"] /\
  count_events is_config_error_event (trace (fst r)) = 0.
Proof. vm_compute. repeat split. Qed.

(** ** Missing watch directory (C8) *)

Lemma add_events_backoff (path : option string) (n : nat) (s : state) :
  add_events (backoff_events path n)
    (emit (Sleep 5) (emit (LogDirNotFound path) s)) =
  add_events (backoff_events path (S n)) s.
Proof.
  unfold add_events, emit. simpl. f_equal. now rewrite <- !app_assoc.
Qed.

Lemma backoff_counts (path : option string) (n : nat) :
  count_events is_sleep_event (backoff_events path n) = n /\
  count_events is_error_event (backoff_events path n) = n.
Proof.
  unfold count_events. induction n as [|n [IH1 IH2]]; simpl; [auto|].
  now rewrite IH1, IH2.
Qed.

Lemma watch_iteration_missing (w : world) (path m extension : option string)
    (interval : Z) (s : state) :
  valid_config path m extension ->
  watch_files_of w path = IoNotFound ->
  signals w AtValidate = None ->
  signals w AtListing = None ->
  watch_iteration w path m extension interval s =
  (emit (Sleep 5) (emit (LogDirNotFound path) s), Continue).
Proof.
  intros Hvalid Hls Hs1 Hs2.
  unfold watch_iteration, cycle_body.
  unfold bind at 1. rewrite deliver_eq. unfold deliver_state. rewrite Hs1.
  unfold bind at 1. rewrite alert_user_valid by assumption.
  unfold bind at 1. rewrite deliver_eq. unfold deliver_state. rewrite Hs2.
  unfold bind at 1. rewrite Hls. reflexivity.
Qed.

(** C8: with a valid configuration and no signal, as long as the watch
    directory does not exist every pass through the loop logs the
    directory-not-found error and sleeps 5 seconds; after any number [n] of
    such passes the loop is still running, the dictionaries are untouched,
    and the loop goes on exactly as a loop started on those dictionaries:
    when the directory is back, the next pass is an ordinary cycle. *)
Theorem missing_directory_retries (n : nat) (ws : nat -> world) (k : nat)
    (path m extension : option string) (interval : Z) (s : state) :
  valid_config path m extension ->
  exit_program s = false ->
  (forall i, i < n ->
     watch_files_of (ws (k + i)) path = IoNotFound /\
     forall p, signals (ws (k + i)) p = None) ->
  watch_directory n ws k path m extension interval s =
    (add_events (backoff_events path n) s, Running) /\
  (forall fuel,
     watch_directory (n + fuel) ws k path m extension interval s =
     watch_directory fuel ws (k + n) path m extension interval
       (add_events (backoff_events path n) s)) /\
  curr_dir_dict (add_events (backoff_events path n) s) = curr_dir_dict s /\
  prev_dir_dict (add_events (backoff_events path n) s) = prev_dir_dict s /\
  count_events is_sleep_event (backoff_events path n) = n /\
  count_events is_error_event (backoff_events path n) = n.
Proof.
  intros Hvalid Hexit Hmissing.
  assert (Hgo : forall fuel,
     watch_directory (n + fuel) ws k path m extension interval s =
     watch_directory fuel ws (k + n) path m extension interval
       (add_events (backoff_events path n) s)).
  { revert k s Hexit Hmissing. induction n as [|n IH]; intros k s Hexit Hmissing fuel.
    - rewrite Nat.add_0_r. unfold add_events. simpl. rewrite app_nil_r.
      now destruct s.
    - cbn [Nat.add watch_directory]. rewrite Hexit.
      destruct (Hmissing 0 ltac:(lia)) as [Hls Hsig].
      rewrite Nat.add_0_r in Hls, Hsig.
      rewrite watch_iteration_missing by auto.
      rewrite IH.
      + rewrite add_events_backoff. f_equal. lia.
      + exact Hexit.
      + intros i Hi. replace (S k + i) with (k + S i) by lia.
        apply Hmissing. lia. }
  split; [|split; [exact Hgo|]].
  - specialize (Hgo 0). rewrite Nat.add_0_r in Hgo. rewrite Hgo.
    cbn [watch_directory add_events exit_program]. now rewrite Hexit.
  - split; [reflexivity|]. split; [reflexivity|]. apply backoff_counts.
Qed.

Lemma missing_directory_retries_witness :
  watch_directory 3 (fun _ => world_missing) 0 dir_d magic_foo None 1
    initial_state =
    (add_events (backoff_events dir_d 3) initial_state, Running) /\
  (forall fuel,
     watch_directory (3 + fuel) (fun _ => world_missing) 0 dir_d magic_foo None 1
       initial_state =
     watch_directory fuel (fun _ => world_missing) (0 + 3) dir_d magic_foo None 1
       (add_events (backoff_events dir_d 3) initial_state)) /\
  curr_dir_dict (add_events (backoff_events dir_d 3) initial_state) =
    curr_dir_dict initial_state /\
  prev_dir_dict (add_events (backoff_events dir_d 3) initial_state) =
    prev_dir_dict initial_state /\
  count_events is_sleep_event (backoff_events dir_d 3) = 3 /\
  count_events is_error_event (backoff_events dir_d 3) = 3.
Proof.
  apply (missing_directory_retries 3 (fun _ => world_missing) 0 dir_d magic_foo
           None 1 initial_state).
  - unfold valid_config. simpl. auto.
  - reflexivity.
  - intros i _. split; [reflexivity | intros p; reflexivity].
Defined.

(** ** Cancellation (C10) *)

(** *** The exit flag is set by the handler and never cleared *)

Create HintDb flag.

Lemma keeps_flag_ret {A} (a : A) : keeps_flag (ret a).
Proof. intros s H. exact H. Qed.

Lemma keeps_flag_raise {A} (e : exn) : keeps_flag (@raise A e).
Proof. intros s H. exact H. Qed.

Lemma keeps_flag_gets {A} (f : state -> A) : keeps_flag (gets f).
Proof. intros s H. exact H. Qed.

Lemma keeps_flag_modify (f : state -> state) :
  (forall s, exit_program (f s) = exit_program s) -> keeps_flag (modify f).
Proof. intros Hf s H. simpl. now rewrite Hf. Qed.

Lemma keeps_flag_bind {A B} (m : M A) (k : A -> M B) :
  keeps_flag m -> (forall a, keeps_flag (k a)) -> keeps_flag (bind m k).
Proof.
  intros Hm Hk s H. rewrite final_state_bind.
  specialize (Hm s H). destruct (m s) as [a s'|e s']; simpl in Hm.
  - now apply Hk.
  - exact Hm.
Qed.

Lemma keeps_flag_deliver (w : world) (p : point) : keeps_flag (deliver w p).
Proof.
  intros s H. rewrite deliver_eq. simpl. unfold deliver_state.
  now destruct (signals w p).
Qed.

Lemma keeps_flag_lift_io {A} (r : io A) : keeps_flag (lift_io r).
Proof. destruct r; intros s H; exact H. Qed.

Lemma keeps_flag_time_sleep (secs : Z) : keeps_flag (time_sleep secs).
Proof.
  unfold time_sleep.
  destruct (secs <? 0)%Z, (9223372037 <=? secs)%Z; intros s H; exact H.
Qed.

Lemma keeps_flag_del_curr (file : string) : keeps_flag (del_curr file).
Proof.
  intros s H. unfold del_curr.
  now destruct (dict_mem (curr_dir_dict s) file).
Qed.

#[local] Hint Resolve keeps_flag_ret keeps_flag_raise keeps_flag_gets
  keeps_flag_deliver keeps_flag_lift_io keeps_flag_time_sleep
  keeps_flag_del_curr : flag.

Ltac flag_step :=
  repeat first
    [ solve [auto with flag]
    | apply keeps_flag_modify; intros; reflexivity
    | apply keeps_flag_bind; [|intros] ].

Lemma keeps_flag_scan_lines (w : world) (f : string) (m : option string)
    (contents : list string) (indices : list nat) :
  keeps_flag (scan_lines w f m contents indices).
Proof.
  induction indices as [|index rest IH]; simpl; [auto with flag|].
  flag_step. destruct (py_in m (nth index contents "")) as [[|]|]; flag_step.
Qed.

#[local] Hint Resolve keeps_flag_scan_lines : flag.

Lemma keeps_flag_search_for_magic (w : world) (f : string) (start_line : nat)
    (m : option string) :
  keeps_flag (search_for_magic w f start_line m).
Proof. unfold search_for_magic. flag_step. Qed.

#[local] Hint Resolve keeps_flag_search_for_magic : flag.

Lemma keeps_flag_filter_extension (w : world) (m extension : option string)
    (files : list string) :
  keeps_flag (filter_extension w m extension files).
Proof.
  induction files as [|file rest IH]; simpl; [auto with flag|].
  flag_step. destruct (passes_filter extension file); flag_step.
Qed.

Lemma keeps_flag_detect_removed_loop (keys files : list string) :
  keeps_flag (detect_removed_loop keys files).
Proof.
  induction keys as [|file rest IH]; simpl; [auto with flag|].
  flag_step. destruct (mem_string file files); flag_step.
Qed.

Lemma keeps_flag_detect_added_loop (keys : list string) (prev_dict : dict) :
  keeps_flag (detect_added_loop keys prev_dict).
Proof.
  induction keys as [|file rest IH]; simpl; [auto with flag|].
  flag_step. destruct (mem_string file (dict_keys prev_dict)); flag_step.
Qed.

Lemma keeps_flag_alert_user (path m extension : option string) :
  keeps_flag (alert_user path m extension).
Proof.
  intros s H. now rewrite alert_user_final.
Qed.

#[local] Hint Resolve keeps_flag_filter_extension keeps_flag_detect_removed_loop
  keeps_flag_detect_added_loop keeps_flag_alert_user : flag.

Lemma keeps_flag_cycle_body (w : world) (path m extension : option string)
    (interval : Z) :
  keeps_flag (cycle_body w path m extension interval).
Proof.
  unfold cycle_body, detect_removed_files, detect_added_files.
  flag_step.
Qed.

Lemma watch_iteration_keeps_flag (w : world) (path m extension : option string)
    (interval : Z) (s : state) :
  exit_program s = true ->
  exit_program (fst (watch_iteration w path m extension interval s)) = true.
Proof.
  intros H. unfold watch_iteration.
  pose proof (keeps_flag_cycle_body w path m extension interval s H) as Hk.
  destruct (cycle_body w path m extension interval s) as [[] s'|e s'];
    simpl in Hk; [exact Hk|].
  now destruct e.
Qed.

(** *** Signals and the flag do not change what a cycle does *)

Lemma same_work_refl (s : state) : same_work s s.
Proof. repeat split. Qed.

Lemma same_work_signal_handler (sig_num : Z) (s : state) :
  same_work (signal_handler sig_num s) s.
Proof. repeat split. Qed.

Lemma same_outcome_bind {A B} (m1 m2 : M A) (k1 k2 : A -> M B)
    (s1 s2 : state) :
  same_outcome (m1 s1) (m2 s2) ->
  (forall a t1 t2, same_work t1 t2 -> same_outcome (k1 a t1) (k2 a t2)) ->
  same_outcome (bind m1 k1 s1) (bind m2 k2 s2).
Proof.
  unfold bind. intros Hm Hk.
  destruct (m1 s1) as [a1 t1|e1 t1], (m2 s2) as [a2 t2|e2 t2]; simpl in Hm;
    try contradiction.
  - destruct Hm as [-> Hw]. now apply Hk.
  - exact Hm.
Qed.

Lemma same_outcome_modify (f1 f2 : state -> state) (s1 s2 : state) :
  same_work (f1 s1) (f2 s2) -> same_outcome (modify f1 s1) (modify f2 s2).
Proof. intros H. simpl. auto. Qed.

Lemma same_outcome_gets {A} (f : state -> A) (s1 s2 : state) :
  f s1 = f s2 -> same_work s1 s2 -> same_outcome (gets f s1) (gets f s2).
Proof. intros Hf Hw. simpl. auto. Qed.

Section SameFiles.

Variables w1 w2 : world.
Hypothesis Hfiles : same_files w1 w2.

Lemma same_outcome_deliver (p : point) (s1 s2 : state) :
  same_work s1 s2 -> same_outcome (deliver w1 p s1) (deliver w2 p s2).
Proof.
  intros [Hc [Hp Ht]]. rewrite !deliver_eq. simpl. split; [reflexivity|].
  unfold same_work.
  now rewrite !deliver_state_curr, !deliver_state_prev, !deliver_state_trace.
Qed.

Lemma same_outcome_scan_lines (f : string) (m : option string)
    (contents : list string) (indices : list nat) (s1 s2 : state) :
  same_work s1 s2 ->
  same_outcome (scan_lines w1 f m contents indices s1)
               (scan_lines w2 f m contents indices s2).
Proof.
  revert s1 s2. induction indices as [|index rest IH]; intros s1 s2 Hw; simpl.
  - auto.
  - apply same_outcome_bind; [now apply same_outcome_deliver|].
    intros _ t1 t2 Ht. apply same_outcome_bind.
    + apply same_outcome_modify. destruct Ht as [Hc [Hp Htr]].
      unfold same_work. simpl. now rewrite Hc, Hp, Htr.
    + intros _ u1 u2 Hu.
      destruct (py_in m (nth index contents "")) as [[|]|].
      * apply same_outcome_modify. destruct Hu as [Hc [Hp Htr]].
        unfold same_work. simpl. now rewrite Hc, Hp, Htr.
      * now apply IH.
      * simpl. auto.
Qed.

Lemma same_outcome_search_for_magic (f : string) (start_line : nat)
    (m : option string) (s1 s2 : state) :
  same_work s1 s2 ->
  same_outcome (search_for_magic w1 f start_line m s1)
               (search_for_magic w2 f start_line m s2).
Proof.
  intros Hw. unfold search_for_magic. apply same_outcome_bind.
  - destruct Hfiles as [_ Hr]. rewrite Hr.
    destruct (readlines w2 f); simpl; auto.
  - intros lines t1 t2 Ht. now apply same_outcome_scan_lines.
Qed.

Lemma same_outcome_filter_extension (m extension : option string)
    (files : list string) (s1 s2 : state) :
  same_work s1 s2 ->
  same_outcome (filter_extension w1 m extension files s1)
               (filter_extension w2 m extension files s2).
Proof.
  revert s1 s2. induction files as [|file rest IH]; intros s1 s2 Hw; simpl.
  - auto.
  - apply same_outcome_bind; [now apply same_outcome_deliver|].
    intros _ t1 t2 Ht. apply same_outcome_bind.
    + destruct (passes_filter extension file); [|simpl; auto].
      apply same_outcome_bind.
      * apply same_outcome_gets; [|exact Ht].
        destruct Ht as [Hc _]. now rewrite Hc.
      * intros start_line u1 u2 Hu. now apply same_outcome_search_for_magic.
    + intros _ u1 u2 Hu. now apply IH.
Qed.

End SameFiles.

Lemma same_outcome_detect_removed_loop (keys files : list string)
    (s1 s2 : state) :
  same_work s1 s2 ->
  same_outcome (detect_removed_loop keys files s1)
               (detect_removed_loop keys files s2).
Proof.
  revert s1 s2. induction keys as [|file rest IH]; intros s1 s2 Hw; simpl.
  - auto.
  - apply same_outcome_bind; [|intros _ t1 t2 Ht; now apply IH].
    destruct (mem_string file files); [simpl; auto|].
    rewrite !removed_step_eq. destruct Hw as [Hc [Hp Ht]]. rewrite Hc.
    destruct (dict_mem (curr_dir_dict s2) file); simpl.
    + split; [reflexivity|]. unfold same_work. simpl. now rewrite Hp, Ht.
    + split; [reflexivity|]. now repeat split.
Qed.

Lemma same_outcome_detect_added_files (prev_dict files1 files2 : dict)
    (s1 s2 : state) :
  same_work s1 s2 ->
  same_outcome (detect_added_files prev_dict files1 s1)
               (detect_added_files prev_dict files2 s2).
Proof.
  intros [Hc [Hp Ht]]. rewrite !detect_added_files_eq. simpl.
  split; [reflexivity|]. unfold same_work. simpl. now rewrite Hc, Hp, Ht.
Qed.

Lemma same_outcome_alert_user (path m extension : option string)
    (s1 s2 : state) :
  same_work s1 s2 ->
  same_outcome (alert_user path m extension s1)
               (alert_user path m extension s2).
Proof.
  intros Hw. unfold alert_user, bind.
  destruct (truthy m); simpl; [|auto].
  destruct extension as [[|c e]|]; simpl; auto.
  - destruct (Ascii.eqb c "."); simpl; [|auto].
    destruct (truthy path); simpl; auto.
  - destruct (truthy path); simpl; auto.
Qed.

Lemma same_outcome_time_sleep (secs : Z) (s1 s2 : state) :
  same_work s1 s2 ->
  same_outcome (time_sleep secs s1) (time_sleep secs s2).
Proof.
  intros [Hc [Hp Ht]]. unfold time_sleep.
  destruct (secs <? 0)%Z, (9223372037 <=? secs)%Z; simpl;
    try (now repeat split).
  split; [reflexivity|]. unfold same_work. simpl. now rewrite Hc, Hp, Ht.
Qed.

Lemma same_outcome_cycle_body (w1 w2 : world)
    (path m extension : option string) (interval : Z) (s1 s2 : state) :
  same_files w1 w2 -> same_work s1 s2 ->
  same_outcome (cycle_body w1 path m extension interval s1)
               (cycle_body w2 path m extension interval s2).
Proof.
  intros Hfiles Hw. unfold cycle_body.
  apply same_outcome_bind; [now apply same_outcome_deliver|].
  intros _ a1 a2 Ha.
  apply same_outcome_bind; [now apply same_outcome_alert_user|].
  intros _ b1 b2 Hb.
  apply same_outcome_bind; [now apply same_outcome_deliver|].
  intros _ c1 c2 Hc.
  apply same_outcome_bind.
  { destruct Hfiles as [Hl _]. rewrite Hl.
    destruct (watch_files_of w2 path); simpl; auto. }
  intros watch_files d1 d2 Hd.
  apply same_outcome_bind; [now apply same_outcome_filter_extension|].
  intros _ e1 e2 He.
  apply same_outcome_bind; [now apply same_outcome_deliver|].
  intros _ f1 f2 Hf.
  apply same_outcome_bind.
  { apply same_outcome_gets; [apply Hf | exact Hf]. }
  intros prev g1 g2 Hg.
  apply same_outcome_bind.
  { unfold detect_removed_files. now apply same_outcome_detect_removed_loop. }
  intros _ h1 h2 Hh.
  apply same_outcome_bind.
  { apply same_outcome_gets; [apply Hh | exact Hh]. }
  intros curr i1 i2 Hi.
  apply same_outcome_bind; [now apply same_outcome_detect_added_files|].
  intros _ j1 j2 Hj.
  apply same_outcome_bind.
  { apply same_outcome_gets; [apply Hj | exact Hj]. }
  intros d k1 k2 Hk.
  apply same_outcome_bind.
  { apply same_outcome_modify. destruct Hk as [Hkc [Hkp Hkt]].
    unfold same_work. simpl. now rewrite Hkc, Hkp, Hkt. }
  intros _ l1 l2 Hl.
  apply same_outcome_bind.
  { apply same_outcome_modify. destruct Hl as [Hlc [Hlp Hlt]].
    unfold same_work. simpl. now rewrite Hlc, Hlt. }
  intros _ n1 n2 Hn.
  apply same_outcome_bind; [now apply same_outcome_deliver|].
  intros _ o1 o2 Ho.
  now apply same_outcome_time_sleep.
Qed.

Lemma same_work_watch_iteration (w1 w2 : world)
    (path m extension : option string) (interval : Z) (s1 s2 : state) :
  same_files w1 w2 -> same_work s1 s2 ->
  same_work (fst (watch_iteration w1 path m extension interval s1))
            (fst (watch_iteration w2 path m extension interval s2)) /\
  snd (watch_iteration w1 path m extension interval s1) =
  snd (watch_iteration w2 path m extension interval s2).
Proof.
  intros Hfiles Hw. unfold watch_iteration.
  pose proof (same_outcome_cycle_body w1 w2 path m extension interval s1 s2
                Hfiles Hw) as H.
  destruct (cycle_body w1 path m extension interval s1) as [[] t1|e1 t1],
           (cycle_body w2 path m extension interval s2) as [[] t2|e2 t2];
    simpl in H; try contradiction.
  - destruct H as [_ H]. simpl. auto.
  - destruct H as [<- [Hc [Hp Ht]]].
    destruct e1; simpl; unfold same_work; simpl; now rewrite Hc, Hp, Ht.
Qed.

Lemma watch_directory_cancelled (fuel : nat) (ws : nat -> world) (k : nat)
    (path m extension : option string) (interval : Z) (s : state) :
  exit_program s = true ->
  watch_directory fuel ws k path m extension interval s = (s, Exited).
Proof. intros H. destruct fuel; simpl; now rewrite H. Qed.

(** C10: the loop reads the exit flag only in its condition.  (1) What an
    iteration does to the dictionaries, what it logs and sleeps, and whether
    it ends the loop, are the same whatever signals are delivered during it
    (before the check, between two files, between two lines of a scan,
    before the diff, during the sleep) and whether or not the flag was
    already set: the cycle in progress runs to its end.  (2) The iteration
    never clears the flag.  (3) With the flag set, the loop starts no
    further cycle.  (4) The handler sets the flag, and a second delivery
    changes neither the flag nor the dictionaries. *)
Theorem cancellation_only_at_cycle_boundary :
  (forall (w1 w2 : world) (path m extension : option string) (interval : Z)
          (s1 s2 : state),
      same_files w1 w2 -> same_work s1 s2 ->
      same_work (fst (watch_iteration w1 path m extension interval s1))
                (fst (watch_iteration w2 path m extension interval s2)) /\
      snd (watch_iteration w1 path m extension interval s1) =
      snd (watch_iteration w2 path m extension interval s2)) /\
  (forall (w : world) (path m extension : option string) (interval : Z)
          (s : state),
      exit_program s = true ->
      exit_program (fst (watch_iteration w path m extension interval s)) = true) /\
  (forall (fuel : nat) (ws : nat -> world) (k : nat)
          (path m extension : option string) (interval : Z) (s : state),
      exit_program s = true ->
      watch_directory fuel ws k path m extension interval s = (s, Exited)) /\
  (forall (a b : Z) (s : state),
      exit_program (signal_handler a s) = true /\
      exit_program (signal_handler b (signal_handler a s)) =
        exit_program (signal_handler a s) /\
      same_work (signal_handler b (signal_handler a s)) (signal_handler a s)).
Proof.
  split; [|split; [|split]].
  - intros. now apply same_work_watch_iteration.
  - intros. now apply watch_iteration_keeps_flag.
  - intros. now apply watch_directory_cancelled.
  - intros a b s. repeat split.
Qed.

Lemma cancellation_only_at_cycle_boundary_witness :
  let r := watch_iteration world_f1_signal dir_d magic_foo None 1 initial_state in
  let r0 := watch_iteration (quiet world_f1_signal) dir_d magic_foo None 1
              initial_state in
  (same_work (fst r) (fst r0) /\ snd r = snd r0) /\
  exit_program (fst r) = true /\
  watch_directory 7 (fun _ => world_f1_signal) 1 dir_d magic_foo None 1 (fst r) =
    (fst r, Exited).
Proof.
  split; [|split].
  - apply (proj1 cancellation_only_at_cycle_boundary).
    + split; intros; reflexivity.
    + apply same_work_refl.
  - reflexivity.
  - apply (proj1 (proj2 (proj2 cancellation_only_at_cycle_boundary))).
    reflexivity.
Defined.

(** A SIGTERM delivered while line 2 of [d/f1.txt] is scanned: the scan goes
    on to line 3 and logs the match there, the diff and the sleep follow,
    and the loop, given fuel for ten passes, stops after this one. *)
Example signal_during_scan :
  watch_directory 10 (fun _ => world_f1_signal) 0 dir_d magic_foo None 1
    initial_state =
  (mkState [("d/f1.txt", 3)] [("d/f1.txt", 3)] true
     [LogMatch magic_foo "d/f1.txt" 3; LogAdded "d/f1.txt";
      LogDict [("d/f1.txt", 3)]; Sleep 1]
     [15%Z],
   Exited).
Proof. reflexivity. Qed.

(** ** The invariant is maintained by the loop *)

Lemma wf_same_work (s s' : state) : same_work s' s -> wf_state s -> wf_state s'.
Proof.
  intros [Hc [Hp _]] Hwf. unfold wf_state. now rewrite Hc, Hp.
Qed.

Lemma wf_deliver_state (w : world) (p : point) (s : state) :
  wf_state s -> wf_state (deliver_state w p s).
Proof.
  apply wf_same_work. unfold same_work.
  now rewrite deliver_state_curr, deliver_state_prev, deliver_state_trace.
Qed.

Lemma wf_scan_steps (P : string -> Prop) (s s' : state) :
  scan_steps P s s' -> wf_state s -> wf_state s'.
Proof.
  intros Hs [Hnc [Hnp Hincl]]. unfold wf_state.
  rewrite (scan_steps_prev _ _ _ Hs).
  split; [now apply (scan_steps_NoDup _ _ _ Hs)|]. split; [assumption|].
  intros x Hx. apply (scan_steps_keys_incl _ _ _ Hs). auto.
Qed.

Lemma time_sleep_final_prev (secs : Z) (s : state) :
  prev_dir_dict (final_state (time_sleep secs s)) = prev_dir_dict s.
Proof.
  unfold time_sleep. now destruct (secs <? 0)%Z, (9223372037 <=? secs)%Z.
Qed.

Lemma cycle_body_final_wf (w : world) (path m extension : option string)
    (interval : Z) (s : state) :
  wf_state s ->
  wf_state (final_state (cycle_body w path m extension interval s)).
Proof.
  intros Hwf. unfold cycle_body.
  rewrite final_state_bind, deliver_eq.
  set (s0 := deliver_state w AtValidate s).
  assert (H0 : wf_state s0) by now apply wf_deliver_state.
  rewrite final_state_bind.
  pose proof (alert_user_final path m extension s0) as Ha.
  destruct (alert_user path m extension s0) as [[] sa|e sa]; simpl in Ha; subst sa;
    [|exact H0].
  rewrite final_state_bind, deliver_eq.
  set (s0' := deliver_state w AtListing s0).
  assert (H0' : wf_state s0') by now apply wf_deliver_state.
  rewrite final_state_bind.
  destruct (watch_files_of w path) as [files| |name]; unfold lift_io, ret, raise;
    [|exact H0'|exact H0'].
  rewrite final_state_bind.
  pose proof (filter_extension_steps w m extension files s0') as Hs.
  apply wf_scan_steps in Hs; [|exact H0'].
  destruct (filter_extension w m extension files s0') as [[] s1|e s1];
    simpl in Hs; [|exact Hs].
  rewrite final_state_bind, deliver_eq.
  set (s2 := deliver_state w AtDiff s1).
  assert (H2 : wf_state s2) by now apply wf_deliver_state.
  rewrite final_state_bind. unfold gets at 1.
  rewrite final_state_bind. unfold detect_removed_files.
  rewrite detect_removed_loop_ok by apply H2.
  rewrite final_state_bind. unfold gets at 1.
  rewrite final_state_bind, detect_added_files_eq.
  rewrite final_state_bind. unfold gets at 1.
  rewrite final_state_bind. unfold modify at 1.
  rewrite final_state_bind. unfold modify at 1.
  rewrite final_state_bind, deliver_eq.
  unfold wf_state.
  rewrite time_sleep_final, time_sleep_final_prev.
  rewrite deliver_state_curr, deliver_state_prev. simpl.
  assert (Hnd : NoDup (dict_keys (fold_left dict_del
            (removed_keys (dict_keys (prev_dir_dict s2)) files)
            (curr_dir_dict s2)))).
  { apply dict_keys_fold_del_NoDup. apply H2. }
  split; [exact Hnd|]. split; [exact Hnd|]. intros x Hx. exact Hx.
Qed.

Lemma watch_iteration_wf (w : world) (path m extension : option string)
    (interval : Z) (s : state) :
  wf_state s ->
  wf_state (fst (watch_iteration w path m extension interval s)).
Proof.
  intros Hwf. unfold watch_iteration.
  pose proof (cycle_body_final_wf w path m extension interval s Hwf) as H.
  destruct (cycle_body w path m extension interval s) as [[] s'|e s'];
    simpl in H; [exact H|].
  destruct e; exact H.
Qed.



(** * Further properties of the scanner *)

Lemma prefix_spec (sub s : string) :
  String.prefix sub s = true <-> exists post, s = String.append sub post.
Proof.
  revert s. induction sub as [|a sub IH]; intros s.
  - split; [intros _; now exists s | intros _; now destruct s].
  - destruct s as [|b s]; simpl.
    + split; [discriminate | intros [post H]; discriminate].
    + destruct (ascii_dec a b) as [->|Hne].
      * rewrite IH. split; intros [post H]; exists post; congruence.
      * split; [discriminate | intros [post H]; congruence].
Qed.

Lemma is_substring_eq (sub s : string) :
  is_substring sub s =
  if String.prefix sub s then true
  else match s with
       | EmptyString => false
       | String _ s' => is_substring sub s'
       end.
Proof. now destruct s. Qed.

(** [is_substring] is containment as a contiguous substring. *)
Lemma is_substring_spec (sub s : string) :
  is_substring sub s = true <->
  exists pre post, s = String.append pre (String.append sub post).
Proof.
  induction s as [|c s IH]; rewrite is_substring_eq.
  - destruct (String.prefix sub "") eqn:Hp.
    + apply prefix_spec in Hp. destruct Hp as [post Hp].
      split; [intros _; now exists "", post | reflexivity].
    + split; [discriminate|]. intros [pre [post H]].
      destruct pre; [|discriminate]. simpl in H.
      assert (String.prefix sub "" = true) by (apply prefix_spec; eauto).
      congruence.
  - destruct (String.prefix sub (String c s)) eqn:Hp.
    + apply prefix_spec in Hp. destruct Hp as [post Hp].
      split; [intros _; now exists "", post | reflexivity].
    + rewrite IH. split.
      * intros [pre [post H]]. exists (String c pre), post. simpl. congruence.
      * intros [pre [post H]]. destruct pre as [|c' pre]; simpl in H.
        -- assert (String.prefix sub (String c s) = true)
             by (apply prefix_spec; eauto).
           congruence.
        -- exists pre, post. congruence.
Qed.

Lemma scan_lines_frame (w : world) (f : string) (m : option string)
    (contents : list string) (indices : list nat) (s : state) :
  let t := final_state (scan_lines w f m contents indices s) in
  prev_dir_dict t = prev_dir_dict s /\
  forall g, g <> f ->
            dict_get (curr_dir_dict t) g = dict_get (curr_dir_dict s) g.
Proof.
  revert s. induction indices as [|index rest IH]; intros s; simpl.
  - auto.
  - rewrite final_state_bind, deliver_eq, final_state_bind. unfold modify at 1.
    set (s2 := set_curr _ _).
    assert (H2 : prev_dir_dict s2 = prev_dir_dict s /\
                 forall g, g <> f ->
                   dict_get (curr_dir_dict s2) g = dict_get (curr_dir_dict s) g).
    { unfold s2. simpl. rewrite deliver_state_prev, deliver_state_curr.
      split; [reflexivity|]. intros g Hg. now apply dict_get_set_other. }
    destruct (py_in m (nth index contents "")) as [[|]|]; simpl.
    + exact H2.
    + destruct (IH s2) as [Hp Hc]. destruct H2 as [Hp2 Hc2].
      split; [congruence|]. intros g Hg. rewrite Hc by assumption. auto.
    + exact H2.
Qed.

(** X5: a scan of one file, whatever its start line and however it ends
    (match, end of file, file that cannot be opened), leaves the entries of
    all other files and the previous-cycle snapshot as they were. *)
Theorem scan_touches_one_entry (w : world) (f g : string) (start_line : nat)
    (m : option string) (s : state) :
  g <> f ->
  let t := final_state (search_for_magic w f start_line m s) in
  dict_get (curr_dir_dict t) g = dict_get (curr_dir_dict s) g /\
  prev_dir_dict t = prev_dir_dict s.
Proof.
  intros Hg. cbv zeta. unfold search_for_magic. rewrite final_state_bind.
  destruct (readlines w f) as [lines| |name]; unfold lift_io, ret, raise;
    try (split; reflexivity).
  destruct (scan_lines_frame w f m ("" :: lines)
              (seq start_line (List.length ("" :: lines) - start_line)) s)
    as [Hp Hc].
  split; [now apply Hc | exact Hp].
Qed.

Lemma scan_touches_one_entry_witness :
  let s := mkState [("d/other.txt", 7)] [("d/other.txt", 7)] false [] [] in
  let t := final_state (search_for_magic world_f1 "d/f1.txt" 1 magic_foo s) in
  dict_get (curr_dir_dict t) "d/other.txt" = dict_get (curr_dir_dict s) "d/other.txt" /\
  prev_dir_dict t = prev_dir_dict s.
Proof.
  apply (scan_touches_one_entry world_f1 "d/f1.txt" "d/other.txt" 1 magic_foo
           (mkState [("d/other.txt", 7)] [("d/other.txt", 7)] false [] [])).
  discriminate.
Defined.

Lemma scan_lines_no_match (w : world) (f mm : string)
    (contents : list string) (n : nat) :
  forall (a : nat) (s : state),
    (forall j, a <= j -> j < a + n ->
               is_substring mm (nth j contents "") = false) ->
    exists s',
      scan_lines w f (Some mm) contents (seq a n) s = Ret tt s' /\
      trace s' = trace s /\
      prev_dir_dict s' = prev_dir_dict s /\
      curr_dir_dict s' =
        match n with
        | O => curr_dir_dict s
        | S _ => dict_set (curr_dir_dict s) f (a + n - 1)
        end.
Proof.
  induction n as [|n IH]; intros a s Hno; simpl.
  - exists s. auto.
  - unfold bind at 1. rewrite deliver_eq. unfold bind at 1, modify at 1.
    rewrite (Hno a) by lia.
    destruct (IH (S a)
                (set_curr (dict_set (curr_dir_dict
                                       (deliver_state w (AtLine f a) s)) f a)
                          (deliver_state w (AtLine f a) s)))
      as [s' [Hr [Ht [Hp Hc]]]]; [intros j H1 H2; apply Hno; lia|].
    exists s'. split; [exact Hr|].
    simpl in Ht, Hp, Hc.
    rewrite deliver_state_trace in Ht. rewrite deliver_state_prev in Hp.
    rewrite deliver_state_curr in Hc.
    split; [exact Ht|]. split; [exact Hp|].
    rewrite Hc. destruct n as [|n].
    + f_equal. lia.
    + rewrite dict_set_set. f_equal. lia.
Qed.

(** X6: when no line from the start line to the end of the file contains
    the magic string, the scan logs nothing and leaves the number of lines
    of the file as the resume point. *)
Theorem scan_without_match (w : world) (f mm : string) (lines : list string)
    (start_line : nat) (s : state) :
  readlines w f = IoOk lines ->
  start_line <= List.length lines ->
  (forall j, start_line <= j -> j <= List.length lines ->
             is_substring mm (nth j ("" :: lines) "") = false) ->
  exists s',
    search_for_magic w f start_line (Some mm) s = Ret tt s' /\
    new_events s s' = [] /\
    dict_get (curr_dir_dict s') f = Some (List.length lines).
Proof.
  intros Hread Hstart Hno.
  destruct (scan_lines_no_match w f mm ("" :: lines)
              (List.length ("" :: lines) - start_line) start_line s)
    as [s' [Hr [Ht [_ Hc]]]].
  { intros j H1 H2. apply Hno; [exact H1|]. cbn [List.length] in H2. lia. }
  exists s'. split; [|split].
  - unfold search_for_magic, bind. rewrite Hread. exact Hr.
  - apply new_events_app. now rewrite app_nil_r.
  - rewrite Hc. cbn [List.length].
    destruct (S (List.length lines) - start_line) as [|n] eqn:E; [lia|].
    rewrite dict_get_set_same. f_equal. lia.
Qed.

Lemma scan_without_match_witness :
  exists s',
    search_for_magic world_race "d/x.txt" 1 (Some "FOO") initial_state =
      Ret tt s' /\
    new_events initial_state s' = [] /\
    dict_get (curr_dir_dict s') "d/x.txt" = Some (List.length ["hello"]).
Proof.
  apply (scan_without_match world_race "d/x.txt" "FOO" ["hello"] 1 initial_state).
  - reflexivity.
  - simpl. lia.
  - intros j H1 H2. simpl in H2.
    destruct j as [|[|j]]; [lia | reflexivity | lia].
Defined.

(** X7: a scan whose start line lies beyond the end of the file (the file
    has not grown since the last scan, or has shrunk) examines no line: it
    returns normally and the state is exactly the one before, so the entry
    keeps its old value and lines rewritten below it are never examined. *)
Theorem scan_past_end_changes_nothing (w : world) (f : string)
    (m : option string) (lines : list string) (start_line : nat) (s : state) :
  readlines w f = IoOk lines ->
  List.length lines < start_line ->
  search_for_magic w f start_line m s = Ret tt s.
Proof.
  intros Hread Hlen. unfold search_for_magic, bind. rewrite Hread.
  unfold lift_io, ret. cbn [List.length].
  replace (S (List.length lines) - start_line) with 0 by lia.
  reflexivity.
Qed.

Lemma scan_past_end_changes_nothing_witness :
  let s := mkState [("d/f.txt", 5)] [("d/f.txt", 5)] false [] [] in
  search_for_magic world_twice "d/f.txt" 6 magic_foo s = Ret tt s.
Proof.
  apply (scan_past_end_changes_nothing world_twice "d/f.txt" magic_foo
           ["FOO"; "FOO"] 6).
  - reflexivity.
  - simpl. lia.
Defined.

Lemma scan_lines_events_match (w : world) (f : string) (m : option string)
    (contents : list string) (indices : list nat) (s : state) :
  let s' := final_state (scan_lines w f m contents indices s) in
  trace s' = trace s \/
  exists k, In k indices /\ py_in m (nth k contents "") = Some true /\
            trace s' = trace s ++ [LogMatch m f k].
Proof.
  revert s. induction indices as [|index rest IH]; intros s; simpl.
  - now left.
  - rewrite final_state_bind, deliver_eq, final_state_bind. unfold modify at 1.
    destruct (py_in m (nth index contents "")) as [[|]|] eqn:Hin; simpl.
    + right. exists index. rewrite deliver_state_trace. auto.
    + destruct (IH (set_curr (dict_set (curr_dir_dict
                      (deliver_state w (AtLine f index) s)) f index)
                      (deliver_state w (AtLine f index) s)))
        as [Ht|[k [Hk [Hm Ht]]]];
        simpl in Ht; rewrite deliver_state_trace in Ht.
      * now left.
      * right. exists k. auto.
    + left. now rewrite deliver_state_trace.
Qed.

(** X8: the scanner raises no false alarm.  Every event of a scan is a
    match event for the scanned file, on a line of the file as it was read,
    at or after the start line, and that line contains the magic string as a
    contiguous substring. *)
Theorem scan_reports_are_sound (w : world) (f : string) (m : option string)
    (start_line : nat) (s : state) (e : event) :
  In e (new_events s (final_state (search_for_magic w f start_line m s))) ->
  exists mm lines k pre post,
    m = Some mm /\
    e = LogMatch m f k /\
    readlines w f = IoOk lines /\
    start_line <= k /\ k <= List.length lines /\
    nth k ("" :: lines) "" = String.append pre (String.append mm post).
Proof.
  unfold search_for_magic. rewrite final_state_bind.
  destruct (readlines w f) as [lines| |name]; unfold lift_io, ret, raise.
  - destruct (scan_lines_events_match w f m ("" :: lines)
                (seq start_line (List.length ("" :: lines) - start_line)) s)
      as [Ht|[k [Hk [Hm Ht]]]].
    + rewrite (new_events_app s _ []) by now rewrite app_nil_r. intros [].
    + rewrite (new_events_app s _ _ Ht). intros [<-|[]].
      destruct m as [mm|]; [|discriminate].
      simpl in Hm. injection Hm as Hm. apply is_substring_spec in Hm.
      destruct Hm as [pre [post Hm]].
      apply in_seq in Hk. cbn [List.length] in Hk.
      exists mm, lines, k, pre, post.
      repeat split; try assumption; lia.
  - rewrite (new_events_app s s []) by now rewrite app_nil_r. intros [].
  - rewrite (new_events_app s s []) by now rewrite app_nil_r. intros [].
Qed.

Lemma scan_reports_are_sound_witness :
  exists mm lines k pre post,
    magic_foo = Some mm /\
    LogMatch magic_foo "d/f1.txt" 3 = LogMatch magic_foo "d/f1.txt" k /\
    readlines world_f1 "d/f1.txt" = IoOk lines /\
    1 <= k /\ k <= List.length lines /\
    nth k ("" :: lines) "" = String.append pre (String.append mm post).
Proof.
  apply (scan_reports_are_sound world_f1 "d/f1.txt" magic_foo 1 initial_state
           (LogMatch magic_foo "d/f1.txt" 3)).
  vm_compute. now left.
Defined.

(** * Further properties of a cycle *)

Lemma same_work_deliver_state (w : world) (p : point) (s : state) :
  same_work (deliver_state w p s) s.
Proof.
  unfold same_work.
  now rewrite deliver_state_curr, deliver_state_prev, deliver_state_trace.
Qed.

Lemma same_work_trans (s1 s2 s3 : state) :
  same_work s1 s2 -> same_work s2 s3 -> same_work s1 s3.
Proof. unfold same_work. intuition congruence. Qed.

Lemma same_work_entry_state (w : world) (s : state) :
  same_work (entry_state w s) s.
Proof.
  unfold entry_state.
  eapply same_work_trans; apply same_work_deliver_state.
Qed.

(** The ways a cycle can end, from a well-formed state: before any scan,
    during the scanning phase, or after both diff passes and the snapshot
    update, with or without the final sleep. *)
Lemma cycle_body_outcomes (w : world) (path m extension : option string)
    (interval : Z) (s : state) :
  wf_state s ->
  let t := final_state (cycle_body w path m extension interval s) in
  same_work t s \/
  exists files,
    watch_files_of w path = IoOk files /\
    let sf := final_state
                (filter_extension w m extension files (entry_state w s)) in
    same_work t sf \/
    (curr_dir_dict t =
       fold_left dict_del (removed_keys (dict_keys (prev_dir_dict s)) files)
                 (curr_dir_dict sf) /\
     prev_dir_dict t = curr_dir_dict t /\
     exists tail,
       (((interval < 0)%Z \/ (9223372037 <= interval)%Z) /\
        tail = [LogDict (curr_dir_dict t)] \/
        (0 <= interval < 9223372037)%Z /\
        tail = [LogDict (curr_dir_dict t); Sleep interval]) /\
       trace t =
         trace sf
         ++ map LogRemoved (removed_keys (dict_keys (prev_dir_dict s)) files)
         ++ map LogAdded
              (added_keys (dict_keys (curr_dir_dict t)) (prev_dir_dict s))
         ++ tail).
Proof.
  intros Hwf. cbv zeta.
  remember (final_state (cycle_body w path m extension interval s)) as t eqn:Et.
  unfold cycle_body in Et.
  rewrite final_state_bind, deliver_eq in Et.
  rewrite final_state_bind in Et.
  pose proof (alert_user_final path m extension (deliver_state w AtValidate s))
    as Ha.
  destruct (alert_user path m extension (deliver_state w AtValidate s))
    as [[] sa|e sa]; simpl in Ha; subst sa;
    [|left; subst t; apply same_work_deliver_state].
  rewrite final_state_bind, deliver_eq in Et.
  fold (entry_state w s) in Et.
  rewrite final_state_bind in Et.
  destruct (watch_files_of w path) as [files| |name];
    unfold lift_io, ret, raise in Et;
    [|left; subst t; apply same_work_entry_state
     |left; subst t; apply same_work_entry_state].
  right. exists files. split; [reflexivity|].
  rewrite final_state_bind in Et.
  pose proof (filter_extension_steps w m extension files (entry_state w s)) as Hs.
  destruct (filter_extension w m extension files (entry_state w s))
    as [[] s1|e s1]; simpl in Hs; cbn [final_state];
    [|left; subst t; apply same_work_refl].
  right.
  assert (Hwf1 : wf_state s1).
  { apply (wf_scan_steps _ _ _ Hs).
    apply (wf_same_work s); [apply same_work_entry_state | exact Hwf]. }
  assert (Hp1 : prev_dir_dict s1 = prev_dir_dict s).
  { rewrite (scan_steps_prev _ _ _ Hs). apply same_work_entry_state. }
  rewrite final_state_bind, deliver_eq in Et.
  assert (H2 : wf_state (deliver_state w AtDiff s1)) by now apply wf_deliver_state.
  rewrite final_state_bind in Et. unfold gets at 1 in Et.
  rewrite final_state_bind in Et. unfold detect_removed_files in Et.
  rewrite detect_removed_loop_ok in Et by apply H2.
  rewrite final_state_bind in Et. unfold gets at 1 in Et.
  rewrite final_state_bind, detect_added_files_eq in Et.
  rewrite final_state_bind in Et. unfold gets at 1 in Et.
  rewrite final_state_bind in Et. unfold modify at 1 in Et.
  rewrite final_state_bind in Et. unfold modify at 1 in Et.
  rewrite final_state_bind, deliver_eq in Et.
  unfold time_sleep in Et.
  destruct (Z.ltb_spec interval 0) as [Hneg|Hpos];
    [|destruct (Z.leb_spec 9223372037 interval) as [Hbig|Hsmall]];
    unfold raise, modify in Et; cbn [final_state] in Et; subst t;
    repeat (rewrite ?deliver_state_curr, ?deliver_state_prev,
              ?deliver_state_trace;
            cbn [emit set_prev dict_copy curr_dir_dict prev_dir_dict trace]);
    rewrite ?Hp1.
  - split; [reflexivity|]. split; [reflexivity|].
    eexists. split; [left; split; [left; exact Hneg | reflexivity]|].
    now rewrite <- !app_assoc.
  - split; [reflexivity|]. split; [reflexivity|].
    eexists. split; [left; split; [right; exact Hbig | reflexivity]|].
    now rewrite <- !app_assoc.
  - split; [reflexivity|]. split; [reflexivity|].
    eexists. split; [right; split; [lia | reflexivity]|].
    now rewrite <- !app_assoc.
Qed.

Lemma watch_iteration_final (w : world) (path m extension : option string)
    (interval : Z) (s : state) :
  let u := final_state (cycle_body w path m extension interval s) in
  let t := fst (watch_iteration w path m extension interval s) in
  curr_dir_dict t = curr_dir_dict u /\
  prev_dir_dict t = prev_dir_dict u /\
  exists hevs, trace t = trace u ++ hevs /\
               forall e, In e hevs -> is_handler_event e = true.
Proof.
  cbv zeta. unfold watch_iteration.
  destruct (cycle_body w path m extension interval s) as [[] u|e u];
    cbn [final_state fst].
  - repeat split. exists []. split; [now rewrite app_nil_r | intros e []].
  - destruct e; cbn [handle_exception fst emit curr_dir_dict prev_dir_dict trace];
      repeat split;
      try (eexists; split; [reflexivity|];
           intros e [<-|[]]; reflexivity).
    exists [LogDirNotFound path; Sleep 5]. split.
    + now rewrite <- app_assoc.
    + intros e [<-|[<-|[]]]; reflexivity.
Qed.

Lemma mem_string_filter (p : string -> bool) (l : list string) (x : string) :
  mem_string x (filter p l) = mem_string x l && p x.
Proof.
  destruct (mem_string x (filter p l)) eqn:E.
  - apply mem_string_In, filter_In in E. destruct E as [Hin Hp].
    apply mem_string_In in Hin. now rewrite Hin, Hp.
  - apply mem_string_not_In in E.
    destruct (mem_string x l) eqn:El; [|reflexivity].
    destruct (p x) eqn:Ep; [|reflexivity].
    exfalso. apply E, filter_In. split; [now apply mem_string_In | exact Ep].
Qed.

Lemma dict_mem_fold_del (ks : list string) (d : dict) (x : string) :
  dict_mem (fold_left dict_del ks d) x = dict_mem d x && negb (mem_string x ks).
Proof.
  unfold dict_mem.
  destruct (mem_string x (dict_keys (fold_left dict_del ks d))) eqn:E.
  - apply mem_string_In, dict_keys_fold_del_In in E. destruct E as [Hin Hout].
    apply mem_string_In in Hin. apply mem_string_not_In in Hout.
    now rewrite Hin, Hout.
  - apply mem_string_not_In in E.
    destruct (mem_string x (dict_keys d)) eqn:Ed; [|reflexivity].
    destruct (mem_string x ks) eqn:Ek; [reflexivity|].
    exfalso. apply E, dict_keys_fold_del_In.
    split; [now apply mem_string_In | now apply mem_string_not_In].
Qed.

Lemma count_handler_events (p : event -> bool) (hevs : list event) :
  (forall e, is_handler_event e = true -> p e = false) ->
  (forall e, In e hevs -> is_handler_event e = true) ->
  count_events p hevs = 0.
Proof.
  intros Hp Hh. apply count_events_zero. intros e He. apply Hp. now apply Hh.
Qed.

Lemma handler_not_added (f : string) (e : event) :
  is_handler_event e = true -> is_added_event f e = false.
Proof. now destruct e. Qed.

Lemma handler_not_removed (f : string) (e : event) :
  is_handler_event e = true -> is_removed_event f e = false.
Proof. now destruct e. Qed.

Lemma handler_not_match (f : string) (e : event) :
  is_handler_event e = true -> is_match_event f e = false.
Proof. now destruct e. Qed.

Lemma handler_not_mentions (f : string) (e : event) :
  is_handler_event e = true -> event_mentions f e = false.
Proof. now destruct e. Qed.

Lemma scan_steps_entry_trace (P : string -> Prop) (w : world) (s sf : state) :
  scan_steps P (entry_state w s) sf ->
  prev_dir_dict sf = prev_dir_dict s /\
  exists evs, trace sf = trace s ++ evs /\ Forall (is_scan_event P) evs.
Proof.
  intros Hs. destruct (same_work_entry_state w s) as [_ [Hp Ht]].
  split.
  - now rewrite (scan_steps_prev _ _ _ Hs).
  - destruct (scan_steps_trace _ _ _ Hs) as [evs [He Hall]].
    exists evs. split; [congruence | exact Hall].
Qed.

(** ** The log agrees with the snapshot *)

Lemma watch_iteration_balanced (w : world) (path m extension : option string)
    (interval : Z) (s : state) :
  wf_state s -> balanced s ->
  balanced (fst (watch_iteration w path m extension interval s)).
Proof.
  intros Hwf Hbal f.
  destruct (watch_iteration_final w path m extension interval s)
    as [_ [Hp [hevs [Ht Hh]]]].
  rewrite Hp, Ht, !count_events_app.
  rewrite (count_handler_events _ hevs (handler_not_added f) Hh).
  rewrite (count_handler_events _ hevs (handler_not_removed f) Hh).
  rewrite !Nat.add_0_r.
  destruct (cycle_body_outcomes w path m extension interval s Hwf)
    as [[_ [Hpu Htu]]|[files [Hfiles [[Hcu [Hpu Htu]]|[Hcu [Hpu [tail [Htail Htu]]]]]]]].
  - rewrite Hpu, Htu. apply Hbal.
  - pose proof (filter_extension_steps w m extension files (entry_state w s))
      as Hs.
    destruct (scan_steps_entry_trace _ _ _ _ Hs) as [Hps [evs [Hts Hall]]].
    rewrite Hpu, Htu, Hps, Hts, !count_events_app.
    rewrite (scan_events_not_added _ _ _ Hall).
    rewrite (scan_events_not_removed _ _ _ Hall).
    rewrite !Nat.add_0_r. apply Hbal.
  - pose proof (filter_extension_steps w m extension files (entry_state w s))
      as Hs.
    destruct (scan_steps_entry_trace _ _ _ _ Hs) as [Hps [evs [Hts Hall]]].
    set (sf := final_state
                 (filter_extension w m extension files (entry_state w s))) in *.
    assert (Hwfs : wf_state sf).
    { apply (wf_scan_steps _ _ _ Hs).
      apply (wf_same_work s); [apply same_work_entry_state | exact Hwf]. }
    assert (Hndu : NoDup (dict_keys (curr_dir_dict
              (final_state (cycle_body w path m extension interval s))))).
    { rewrite Hcu. apply dict_keys_fold_del_NoDup, Hwfs. }
    rewrite Htu, Hts, !count_events_app.
    rewrite (scan_events_not_added _ _ _ Hall).
    rewrite (scan_events_not_removed _ _ _ Hall).
    rewrite count_added_in_removed, count_removed_in_added.
    rewrite count_removed_map by (apply NoDup_filter, Hwf).
    rewrite count_added_map by (apply NoDup_filter, Hndu).
    assert (Htl : count_events (is_added_event f) tail = 0 /\
                  count_events (is_removed_event f) tail = 0).
    { destruct Htail as [[_ ->]|[_ ->]]; split; reflexivity. }
    destruct Htl as [-> ->].
    specialize (Hbal f). rewrite Hbal.
    unfold added_keys, removed_keys. rewrite !mem_string_filter.
    unfold tracked_bit. rewrite Hpu.
    fold (dict_mem (curr_dir_dict
            (final_state (cycle_body w path m extension interval s))) f).
    rewrite Hcu, dict_mem_fold_del. unfold removed_keys.
    rewrite mem_string_filter.
    fold (dict_mem (prev_dir_dict s) f).
    assert (Hsub : dict_mem (prev_dir_dict s) f = true ->
                   dict_mem (curr_dir_dict sf) f = true).
    { unfold dict_mem. rewrite !mem_string_In. intros Hin.
      apply Hwfs. now rewrite Hps. }
    destruct (dict_mem (prev_dir_dict s) f);
      [rewrite Hsub by reflexivity|];
      destruct (mem_string f files);
      try destruct (dict_mem (curr_dir_dict sf) f); simpl; lia.
Qed.

Lemma watch_directory_invariant (I : state -> Prop)
    (path m extension : option string) (interval : Z) :
  (forall w s, wf_state s -> I s ->
               I (fst (watch_iteration w path m extension interval s))) ->
  forall (fuel : nat) (ws : nat -> world) (k : nat) (s : state),
    wf_state s -> I s ->
    I (fst (watch_directory fuel ws k path m extension interval s)).
Proof.
  intros Hstep. induction fuel as [|fuel IH]; intros ws k s Hwf HI; simpl.
  - now destruct (exit_program s).
  - destruct (exit_program s); [exact HI|].
    pose proof (watch_iteration_wf (ws k) path m extension interval s Hwf) as H1.
    pose proof (Hstep (ws k) s Hwf HI) as H2.
    destruct (watch_iteration (ws k) path m extension interval s) as [s' [|]];
      simpl in H1, H2; [now apply IH | exact H2].
Qed.

(** X9: between the passes of the loop, that is in the state in which the
    loop condition is evaluated after any number of passes from start-up
    (and in the state in which the loop ends), whatever the environment
    does (files that vanish, cycles that are aborted, signals), the log
    agrees with the snapshot: for each file the addition events
    logged so far exceed the removal events by one when the file is in the
    previous-cycle snapshot, and equal them otherwise.  Inside a pass,
    after the addition events and before the snapshot is taken, the balance
    does not hold. *)
Theorem log_agrees_with_snapshot (fuel : nat) (ws : nat -> world)
    (path m extension : option string) (interval : Z) (f : string) :
  let s := fst (watch_directory fuel ws 0 path m extension interval
                  initial_state) in
  count_events (is_added_event f) (trace s) =
  count_events (is_removed_event f) (trace s) + tracked_bit (prev_dir_dict s) f.
Proof.
  apply (watch_directory_invariant balanced path m extension interval
           (fun w s => watch_iteration_balanced w path m extension interval s)
           fuel ws 0 initial_state wf_initial).
  intros g. reflexivity.
Qed.

(** ** Files that the extension filter excludes *)

Lemma count_mentions_scan_events (P : string -> Prop) (f : string)
    (evs : list event) :
  ~ P f -> Forall (is_scan_event P) evs ->
  count_events (event_mentions f) evs = 0.
Proof.
  intros HP H. apply count_events_zero. intros e He.
  rewrite Forall_forall in H. destruct (H e He) as [m [g [i [-> Hg]]]].
  simpl. apply String.eqb_neq. intros ->. contradiction.
Qed.

Lemma count_mentions_removed (f : string) (ks : list string) :
  ~ In f ks -> count_events (event_mentions f) (map LogRemoved ks) = 0.
Proof.
  intros H. apply count_events_zero. intros e He. apply in_map_iff in He.
  destruct He as [k [<- Hk]]. simpl. apply String.eqb_neq. intros ->. contradiction.
Qed.

Lemma count_mentions_added (f : string) (ks : list string) :
  ~ In f ks -> count_events (event_mentions f) (map LogAdded ks) = 0.
Proof.
  intros H. apply count_events_zero. intros e He. apply in_map_iff in He.
  destruct He as [k [<- Hk]]. simpl. apply String.eqb_neq. intros ->. contradiction.
Qed.

Lemma watch_iteration_never_seen (w : world) (path m extension : option string)
    (interval : Z) (s : state) (f : string) :
  passes_filter extension f = false ->
  wf_state s -> never_seen f s ->
  never_seen f (fst (watch_iteration w path m extension interval s)).
Proof.
  intros Hpass Hwf [Hc [Hp Hn]].
  destruct (watch_iteration_final w path m extension interval s)
    as [Hct [Hpt [hevs [Ht Hh]]]].
  unfold never_seen. rewrite Hct, Hpt, Ht, count_events_app.
  rewrite (count_handler_events _ hevs (handler_not_mentions f) Hh).
  rewrite Nat.add_0_r.
  destruct (cycle_body_outcomes w path m extension interval s Hwf)
    as [[Hcu [Hpu Htu]]|[files [Hfiles [[Hcu [Hpu Htu]]|[Hcu [Hpu [tail [Htail Htu]]]]]]]].
  - now rewrite Hcu, Hpu, Htu.
  - pose proof (filter_extension_steps w m extension files (entry_state w s))
      as Hs.
    assert (HP : ~ (In f files /\ passes_filter extension f = true))
      by (intros [_ H]; congruence).
    destruct (scan_steps_entry_trace _ _ _ _ Hs) as [Hps [evs [Hts Hall]]].
    rewrite Hcu, Hpu, Htu, Hps, Hts, count_events_app.
    rewrite (scan_steps_other _ _ _ Hs f HP).
    rewrite (count_mentions_scan_events _ f evs HP Hall).
    destruct (same_work_entry_state w s) as [-> _].
    rewrite Nat.add_0_r. auto.
  - pose proof (filter_extension_steps w m extension files (entry_state w s))
      as Hs.
    assert (HP : ~ (In f files /\ passes_filter extension f = true))
      by (intros [_ H]; congruence).
    destruct (scan_steps_entry_trace _ _ _ _ Hs) as [Hps [evs [Hts Hall]]].
    set (sf := final_state
                 (filter_extension w m extension files (entry_state w s))) in *.
    assert (Hsf : dict_get (curr_dir_dict sf) f = None).
    { rewrite (scan_steps_other _ _ _ Hs f HP).
      destruct (same_work_entry_state w s) as [-> _]. exact Hc. }
    assert (Hu : dict_get (curr_dir_dict
               (final_state (cycle_body w path m extension interval s))) f
             = None).
    { rewrite Hcu, dict_get_fold_del, Hsf. now destruct (mem_string f _). }
    split; [exact Hu|]. split; [now rewrite Hpu|].
    rewrite Htu, Hts, !count_events_app.
    rewrite (count_mentions_scan_events _ f evs HP Hall), Hn.
    rewrite count_mentions_removed.
    2:{ rewrite removed_keys_In. intros [Hin _].
        apply dict_get_None in Hp. contradiction. }
    rewrite count_mentions_added.
    2:{ rewrite added_keys_In. intros [Hin _].
        apply dict_get_None in Hu. contradiction. }
    assert (Hmem : dict_mem (curr_dir_dict
               (final_state (cycle_body w path m extension interval s))) f
             = false).
    { apply mem_string_not_In, dict_get_None, Hu. }
    destruct Htail as [[_ ->]|[_ ->]]; unfold count_events; simpl;
      now rewrite Hmem.
Qed.

(** X10: a file whose extension differs from the filter is never scanned or
    tracked, whatever it contains and however long the loop runs: from
    start-up it never has an entry in either dictionary, and no match,
    addition or removal event nor any dump of the dictionary mentions
    it. *)
Theorem filtered_file_never_tracked (fuel : nat) (ws : nat -> world)
    (path m extension : option string) (interval : Z) (f : string) :
  passes_filter extension f = false ->
  let s := fst (watch_directory fuel ws 0 path m extension interval
                  initial_state) in
  dict_get (curr_dir_dict s) f = None /\
  dict_get (prev_dir_dict s) f = None /\
  count_events (event_mentions f) (trace s) = 0.
Proof.
  intros Hpass.
  apply (watch_directory_invariant (never_seen f) path m extension interval
           (fun w s => watch_iteration_never_seen w path m extension interval s f
                         Hpass)
           fuel ws 0 initial_state wf_initial).
  repeat split.
Qed.

Lemma filtered_file_never_tracked_witness :
  let s := fst (watch_directory 5 (fun _ => world_txt) 0 dir_d magic_foo
                  (Some ".log") 1 initial_state) in
  dict_get (curr_dir_dict s) "d/a.txt" = None /\
  dict_get (prev_dir_dict s) "d/a.txt" = None /\
  count_events (event_mentions "d/a.txt") (trace s) = 0.
Proof.
  apply (filtered_file_never_tracked 5 (fun _ => world_txt) dir_d magic_foo
           (Some ".log") 1 "d/a.txt").
  reflexivity.
Defined.

(** ** Events of one iteration *)

Lemma search_for_magic_trace (w : world) (f : string) (start_line : nat)
    (m : option string) (s : state) :
  let t := final_state (search_for_magic w f start_line m s) in
  trace t = trace s \/ exists k, trace t = trace s ++ [LogMatch m f k].
Proof.
  cbv zeta. unfold search_for_magic. rewrite final_state_bind.
  destruct (readlines w f) as [lines| |name]; unfold lift_io, ret, raise;
    try (now left).
  destruct (scan_lines_events w f m ("" :: lines)
              (seq start_line (List.length ("" :: lines) - start_line)) s)
    as [Ht|[k [_ Ht]]]; [now left | right; now exists k].
Qed.

Lemma filter_extension_match_count (w : world) (m extension : option string)
    (f : string) (files : list string) (s : state) :
  exists evs,
    trace (final_state (filter_extension w m extension files s)) =
      trace s ++ evs /\
    count_events (is_match_event f) evs <= count_occ string_dec files f.
Proof.
  revert s. induction files as [|file rest IH]; intros s.
  - exists []. split; [simpl; now rewrite app_nil_r|].
    unfold count_events. simpl. lia.
  - cbn [filter_extension]. rewrite final_state_bind, deliver_eq.
    rewrite final_state_bind.
    set (s0 := deliver_state w (AtFile file) s).
    assert (Ht0 : trace s0 = trace s) by apply deliver_state_trace.
    assert (Hone : forall k,
      count_events (is_match_event f) [LogMatch m file k] <=
      (if string_dec file f then 1 else 0)).
    { intros k. unfold count_events. simpl.
      destruct (String.eqb_spec file f) as [->|Hne]; simpl.
      - destruct (string_dec f f); [lia | contradiction].
      - lia. }
    assert (Hcons : count_occ string_dec (file :: rest) f =
                    (if string_dec file f then 1 else 0) +
                    count_occ string_dec rest f).
    { simpl. now destruct (string_dec file f). }
    rewrite Hcons.
    destruct (passes_filter extension file).
    + unfold bind at 1, gets at 1.
      pose proof (search_for_magic_trace w file
                    (dict_get_default (curr_dir_dict s0) file 0 + 1) m s0)
        as Hsm. cbv zeta in Hsm.
      destruct (search_for_magic w file _ m s0) as [[] s1|e s1];
        cbn [final_state] in Hsm |- *.
      * destruct (IH s1) as [evs [Ht Hc]].
        destruct Hsm as [Hsm|[k Hsm]].
        -- exists evs. split; [congruence | lia].
        -- exists (LogMatch m file k :: evs). split.
           ++ rewrite Ht, Hsm, Ht0, <- app_assoc. reflexivity.
           ++ change (LogMatch m file k :: evs)
                with ([LogMatch m file k] ++ evs).
              rewrite count_events_app. specialize (Hone k). lia.
      * destruct Hsm as [Hsm|[k Hsm]].
        -- exists []. split; [rewrite app_nil_r; congruence|].
           unfold count_events. simpl. lia.
        -- exists [LogMatch m file k]. split; [congruence|].
           specialize (Hone k). lia.
    + unfold ret at 1. destruct (IH s0) as [evs [Ht Hc]].
      exists evs. split; [congruence | lia].
Qed.

Lemma count_match_removed (f : string) (ks : list string) :
  count_events (is_match_event f) (map LogRemoved ks) = 0.
Proof.
  apply count_events_zero. intros e He. apply in_map_iff in He.
  destruct He as [k [<- _]]. reflexivity.
Qed.

Lemma count_match_added (f : string) (ks : list string) :
  count_events (is_match_event f) (map LogAdded ks) = 0.
Proof.
  apply count_events_zero. intros e He. apply in_map_iff in He.
  destruct He as [k [<- _]]. reflexivity.
Qed.

(** X11: one pass through the loop reports at most one match per file,
    however many new lines of the file contain the magic string: the scan
    of a file stops at its first match, and further occurrences wait for
    later cycles. *)
Theorem one_match_per_file_per_cycle (w : world)
    (path m extension : option string) (interval : Z) (s : state) (f : string) :
  wf_state s ->
  (forall files, watch_files_of w path = IoOk files -> NoDup files) ->
  count_events (is_match_event f)
    (new_events s (fst (watch_iteration w path m extension interval s))) <= 1.
Proof.
  intros Hwf Hnd.
  destruct (watch_iteration_final w path m extension interval s)
    as [_ [_ [hevs [Ht Hh]]]].
  pose proof (count_handler_events _ hevs (handler_not_match f) Hh) as Hzero.
  destruct (cycle_body_outcomes w path m extension interval s Hwf)
    as [[_ [_ Htu]]|[files [Hfiles [[_ [_ Htu]]|[_ [_ [tail [Htail Htu]]]]]]]].
  - rewrite (new_events_app s _ hevs) by congruence. lia.
  - destruct (filter_extension_match_count w m extension f files
                (entry_state w s)) as [evs [Hts Hc]].
    destruct (same_work_entry_state w s) as [_ [_ Hte]].
    rewrite (new_events_app s _ (evs ++ hevs)).
    2:{ rewrite Ht, Htu, Hts, Hte. now rewrite <- app_assoc. }
    rewrite count_events_app.
    pose proof (proj1 (NoDup_count_occ string_dec files) (Hnd files Hfiles) f).
    lia.
  - destruct (filter_extension_match_count w m extension f files
                (entry_state w s)) as [evs [Hts Hc]].
    destruct (same_work_entry_state w s) as [_ [_ Hte]].
    rewrite (new_events_app s _
               (evs ++ map LogRemoved
                         (removed_keys (dict_keys (prev_dir_dict s)) files)
                    ++ map LogAdded
                         (added_keys
                            (dict_keys (curr_dir_dict
                               (final_state
                                  (cycle_body w path m extension interval s))))
                            (prev_dir_dict s))
                    ++ tail ++ hevs)).
    2:{ rewrite Ht, Htu, Hts, Hte. now rewrite <- !app_assoc. }
    rewrite !count_events_app, count_match_removed, count_match_added.
    assert (Htl : count_events (is_match_event f) tail = 0).
    { destruct Htail as [[_ ->]|[_ ->]]; reflexivity. }
    pose proof (proj1 (NoDup_count_occ string_dec files) (Hnd files Hfiles) f).
    lia.
Qed.

Lemma one_match_per_file_per_cycle_witness :
  count_events (is_match_event "d/f.txt")
    (new_events initial_state
       (fst (watch_iteration world_twice dir_d magic_foo None 1 initial_state)))
  <= 1.
Proof.
  apply (one_match_per_file_per_cycle world_twice dir_d magic_foo None 1
           initial_state "d/f.txt").
  - exact wf_initial.
  - intros files [= <-]. simpl. repeat constructor; simpl; tauto.
Defined.

(** X12: what a cycle that runs to its end logs, in order: the match
    events of the scanning phase; one removal event for each key of the
    previous-cycle snapshot that is missing from the listing, in the order
    of the snapshot; one addition event for each key of the watch state that
    the snapshot lacks, in the order of the dictionary; one dump of the
    dictionary; and it sleeps once, for the configured interval. *)
Theorem completed_cycle_events (w : world) (path m extension : option string)
    (interval : Z) (s s' : state) (files : list string) :
  wf_state s ->
  cycle_body w path m extension interval s = Ret tt s' ->
  watch_files_of w path = IoOk files ->
  exists evs,
    (forall e, In e evs ->
               exists m' g i, e = LogMatch m' g i /\ In g files /\
                              passes_filter extension g = true) /\
    new_events s s' =
      evs
      ++ map LogRemoved
           (filter (fun k => negb (mem_string k files))
                   (dict_keys (prev_dir_dict s)))
      ++ map LogAdded
           (filter (fun k => negb (mem_string k (dict_keys (prev_dir_dict s))))
                   (dict_keys (curr_dir_dict s')))
      ++ [LogDict (curr_dir_dict s'); Sleep interval].
Proof.
  intros Hwf H Hfiles.
  destruct (cycle_body_ret _ _ _ _ _ _ _ Hwf H)
    as [files' [s1 [_ [Hfiles' [Hf [Hint [Hc [Hp Htr]]]]]]]].
  rewrite Hfiles in Hfiles'. injection Hfiles' as <-.
  pose proof (filter_extension_steps w m extension files (entry_state w s)) as Hs.
  rewrite Hf in Hs. cbn [final_state] in Hs.
  destruct (scan_steps_entry_trace _ _ _ _ Hs) as [_ [evs [Hts Hall]]].
  exists evs. split.
  - intros e He. rewrite Forall_forall in Hall.
    destruct (Hall e He) as [m' [g [i [-> [Hg Hpass]]]]]. eauto 6.
  - apply new_events_app. rewrite Htr, Hts.
    unfold removed_keys, added_keys. now rewrite <- !app_assoc.
Qed.

Lemma completed_cycle_events_witness :
  let s' := fst (watch_iteration world_f1 dir_d magic_foo None 1 initial_state) in
  exists evs,
    (forall e, In e evs ->
               exists m' g i, e = LogMatch m' g i /\ In g ["d/f1.txt"] /\
                              passes_filter None g = true) /\
    new_events initial_state s' =
      evs
      ++ map LogRemoved
           (filter (fun k => negb (mem_string k ["d/f1.txt"]))
                   (dict_keys (prev_dir_dict initial_state)))
      ++ map LogAdded
           (filter (fun k => negb (mem_string k
                                     (dict_keys (prev_dir_dict initial_state))))
                   (dict_keys (curr_dir_dict s')))
      ++ [LogDict (curr_dir_dict s'); Sleep 1].
Proof.
  apply (completed_cycle_events world_f1 dir_d magic_foo None 1 initial_state
           _ ["d/f1.txt"]).
  - exact wf_initial.
  - reflexivity.
  - reflexivity.
Defined.

(** X13: what the diff passes of a completed cycle never do: a file that is
    in the previous-cycle snapshot is not announced as added again, a file
    that is not in the snapshot is not reported as removed, and a file that
    is still listed is not reported as removed. *)
Theorem no_spurious_diff_events (w : world) (path m extension : option string)
    (interval : Z) (s s' : state) (files : list string) (f : string) :
  wf_state s ->
  cycle_body w path m extension interval s = Ret tt s' ->
  watch_files_of w path = IoOk files ->
  (In f (dict_keys (prev_dir_dict s)) ->
   count_events (is_added_event f) (new_events s s') = 0) /\
  (~ In f (dict_keys (prev_dir_dict s)) ->
   count_events (is_removed_event f) (new_events s s') = 0) /\
  (In f files ->
   count_events (is_removed_event f) (new_events s s') = 0).
Proof.
  intros Hwf H Hfiles.
  rewrite (added_event_count _ _ _ _ _ _ _ _ f Hwf H Hfiles).
  rewrite (removed_event_count _ _ _ _ _ _ _ _ f Hwf H Hfiles).
  split; [|split].
  - intros Hin. destruct (mem_string f (added_keys _ _)) eqn:E; [|reflexivity].
    apply mem_string_In, added_keys_In in E. tauto.
  - intros Hout. destruct (mem_string f (removed_keys _ _)) eqn:E; [|reflexivity].
    apply mem_string_In, removed_keys_In in E. tauto.
  - intros Hin. destruct (mem_string f (removed_keys _ _)) eqn:E; [|reflexivity].
    apply mem_string_In, removed_keys_In in E. tauto.
Qed.

Lemma no_spurious_diff_events_witness :
  let s := mkState [("d/f1.txt", 3)] [("d/f1.txt", 3)] false [] [] in
  let s' := fst (watch_iteration world_f1 dir_d magic_foo None 1 s) in
  (In "d/f1.txt" (dict_keys (prev_dir_dict s)) ->
   count_events (is_added_event "d/f1.txt") (new_events s s') = 0) /\
  (~ In "d/f1.txt" (dict_keys (prev_dir_dict s)) ->
   count_events (is_removed_event "d/f1.txt") (new_events s s') = 0) /\
  (In "d/f1.txt" ["d/f1.txt"] ->
   count_events (is_removed_event "d/f1.txt") (new_events s s') = 0).
Proof.
  apply (no_spurious_diff_events world_f1 dir_d magic_foo None 1
           (mkState [("d/f1.txt", 3)] [("d/f1.txt", 3)] false [] [])
           _ ["d/f1.txt"] "d/f1.txt").
  - repeat split; simpl.
    + repeat constructor; simpl; tauto.
    + repeat constructor; simpl; tauto.
    + intros x Hx. exact Hx.
  - reflexivity.
  - reflexivity.
Defined.

(** X14: after a cycle that started with the watch state equal to the
    snapshot and ran to its end, the watch state again equals the snapshot
    and tracks only files of the current listing: every path absent from
    the listing has been dropped. *)
Theorem completed_cycle_tracks_listed (w : world)
    (path m extension : option string) (interval : Z) (s s' : state)
    (files : list string) :
  wf_state s -> in_sync s ->
  cycle_body w path m extension interval s = Ret tt s' ->
  watch_files_of w path = IoOk files ->
  in_sync s' /\
  forall k, In k (dict_keys (curr_dir_dict s')) -> In k files.
Proof.
  intros Hwf Hsync H Hfiles.
  destruct (cycle_summary _ _ _ _ _ _ _ _ Hwf H Hfiles)
    as [s1 [evs [_ [Hs [_ [Hc [Hp _]]]]]]].
  split; [exact Hp|].
  intros k Hk. rewrite Hc in Hk. apply dict_keys_fold_del_In in Hk.
  destruct Hk as [Hk Hnr].
  destruct (in_dec string_dec k files) as [Hin|Hout]; [exact Hin|].
  exfalso. apply Hnr, removed_keys_In. split; [|exact Hout].
  destruct (scan_steps_keys _ _ _ Hs k Hk) as [Hk0|[Hk0 _]]; [|contradiction].
  destruct (same_work_entry_state w s) as [Hec _]. rewrite Hec in Hk0.
  unfold in_sync in Hsync. now rewrite Hsync.
Qed.

Lemma completed_cycle_tracks_listed_witness :
  let s := mkState [("d/f1.txt", 3); ("d/gone.txt", 2)]
                   [("d/f1.txt", 3); ("d/gone.txt", 2)] false [] [] in
  let s' := fst (watch_iteration world_f1 dir_d magic_foo None 1 s) in
  in_sync s' /\
  forall k, In k (dict_keys (curr_dir_dict s')) -> In k ["d/f1.txt"].
Proof.
  apply (completed_cycle_tracks_listed world_f1 dir_d magic_foo None 1
           (mkState [("d/f1.txt", 3); ("d/gone.txt", 2)]
                    [("d/f1.txt", 3); ("d/gone.txt", 2)] false [] [])).
  - repeat split; simpl.
    + repeat constructor; simpl; intuition discriminate.
    + repeat constructor; simpl; intuition discriminate.
    + intros x Hx. exact Hx.
  - reflexivity.
  - reflexivity.
  - reflexivity.
Defined.

(** * Further properties of the loop *)






(** X16: the loop never ends silently.  Whenever it has ended, either the
    exit flag is set (a signal was received) or the last thing it did was
    to log one of the error messages of its terminal handlers. *)
Theorem loop_never_exits_silently (fuel : nat) (ws : nat -> world) (k : nat)
    (path m extension : option string) (interval : Z) (s : state) :
  let r := watch_directory fuel ws k path m extension interval s in
  snd r = Exited ->
  exit_program (fst r) = true \/
  exists pre e, trace (fst r) = pre ++ [e] /\ is_terminal_error_event e = true.
Proof.
  cbv zeta. revert k s. induction fuel as [|fuel IH]; intros k s; simpl.
  - destruct (exit_program s) eqn:E; simpl; [auto | discriminate].
  - destruct (exit_program s) eqn:E; simpl; [auto|].
    destruct (watch_iteration (ws k) path m extension interval s)
      as [s' [|]] eqn:Hit.
    + apply IH.
    + intros _. right. simpl. unfold watch_iteration in Hit.
      destruct (cycle_body (ws k) path m extension interval s) as [[] u|e u];
        [discriminate|].
      destruct e; simpl in Hit; try discriminate;
        injection Hit as <-; eexists; eexists; (split; [reflexivity|reflexivity]).
Qed.

Lemma loop_never_exits_silently_witness :
  let r := watch_directory 4 (fun _ => world_f1) 0 dir_d None None 1
             initial_state in
  exit_program (fst r) = true \/
  exists pre e, trace (fst r) = pre ++ [e] /\ is_terminal_error_event e = true.
Proof.
  apply (loop_never_exits_silently 4 (fun _ => world_f1) 0 dir_d None None 1
           initial_state).
  reflexivity.
Defined.

(** X17: [detect_removed_files] relies on every snapshot key being a key of
    the watch state: if a key of the snapshot is missing both from the
    listing and from the watch state, [del curr_dir_dict[file]] raises
    [KeyError]. *)
Theorem removal_of_missing_key_raises (prev_dict : dict) (files : list string)
    (s : state) (k : string) :
  In k (dict_keys prev_dict) ->
  ~ In k files ->
  ~ In k (dict_keys (curr_dir_dict s)) ->
  exists s', detect_removed_files prev_dict files s =
             Raise (OtherError "KeyError") s'.
Proof.
  unfold detect_removed_files. generalize (dict_keys prev_dict) as keys.
  intros keys. revert s.
  induction keys as [|file rest IH]; intros s Hin Hout Hmiss; [destruct Hin|].
  cbn [detect_removed_loop]. unfold bind at 1.
  destruct (mem_string file files) eqn:Hmem.
  - unfold ret at 1. apply IH; try assumption.
    destruct Hin as [->|Hin]; [|exact Hin].
    apply mem_string_In in Hmem. contradiction.
  - rewrite removed_step_eq.
    destruct (dict_mem (curr_dir_dict s) file) eqn:Hd; [|eauto].
    destruct (string_dec file k) as [->|Hne].
    + apply mem_string_In in Hd. contradiction.
    + apply IH; try assumption.
      * destruct Hin as [->|Hin]; [contradiction | exact Hin].
      * simpl. rewrite dict_keys_del_In. tauto.
Qed.

Lemma removal_of_missing_key_raises_witness :
  exists s', detect_removed_files [("d/a.txt", 1)] [] initial_state =
             Raise (OtherError "KeyError") s'.
Proof.
  apply (removal_of_missing_key_raises [("d/a.txt", 1)] [] initial_state
           "d/a.txt").
  - simpl. now left.
  - simpl. tauto.
  - simpl. tauto.
Defined.

(** * The extension filter and [os.path.splitext] *)

Lemma has_char_cons (a c : ascii) (s : string) :
  has_char a (String c s) = Ascii.eqb a c || has_char a s.
Proof. reflexivity. Qed.

Lemma from_last_dot_None (s : string) :
  from_last_dot s = None -> has_char "." s = false.
Proof.
  induction s as [|c s IH]; [reflexivity|].
  cbn [from_last_dot]. destruct (from_last_dot s) as [e|]; [intros H; discriminate H|].
  rewrite has_char_cons.
  destruct (Ascii.eqb_spec c ".") as [->|Hne]; [intros H; discriminate H|].
  intros _. rewrite IH by reflexivity.
  destruct (Ascii.eqb_spec "." c); [congruence | reflexivity].
Qed.

Lemma from_last_dot_shape (s e : string) :
  from_last_dot s = Some e ->
  exists r, e = String "." r /\ has_char "." r = false.
Proof.
  revert e. induction s as [|c s IH]; intros e; [discriminate|].
  cbn [from_last_dot]. destruct (from_last_dot s) as [e'|] eqn:E.
  - intros [= <-]. now apply IH.
  - destruct (Ascii.eqb_spec c ".") as [->|Hne]; [|discriminate].
    intros [= <-]. exists s. split; [reflexivity|].
    now apply from_last_dot_None.
Qed.

Lemma has_char_from_last_dot (c : ascii) (s e : string) :
  has_char c s = false -> from_last_dot s = Some e -> has_char c e = false.
Proof.
  revert e. induction s as [|a s IH]; intros e Hs; [discriminate|].
  cbn [from_last_dot].
  assert (Hs' : has_char c s = false).
  { rewrite has_char_cons in Hs. now apply orb_false_iff in Hs. }
  destruct (from_last_dot s) as [e'|].
  - intros [= <-]. now apply IH.
  - destruct (Ascii.eqb a "."); [|discriminate]. intros [= <-]. exact Hs.
Qed.

Lemma has_char_strip_leading_dots (c : ascii) (s : string) :
  has_char c s = false -> has_char c (strip_leading_dots s) = false.
Proof.
  induction s as [|a s IH]; [auto|]. cbn [strip_leading_dots]. intros Hs.
  destruct (Ascii.eqb a "."); [|exact Hs].
  apply IH. rewrite has_char_cons in Hs. now apply orb_false_iff in Hs.
Qed.

Lemma has_char_basename (p : string) : has_char "/" (basename p) = false.
Proof.
  induction p as [|c p IH]; [reflexivity|]. cbn [basename].
  destruct (has_char "/" p) eqn:Hp; [exact IH|].
  destruct (Ascii.eqb_spec c "/") as [->|Hne]; [exact Hp|].
  rewrite has_char_cons, Hp.
  destruct (Ascii.eqb_spec "/" c); [congruence | reflexivity].
Qed.

(** X18: [os.path.splitext] yields either no extension or a suffix of the
    last path component that starts with a dot and contains no further dot
    and no slash.  So an extension filter with a second dot or a slash
    (such as [.tar.gz]), which the configuration check accepts, admits no
    file at all: nothing is ever scanned. *)
Theorem filter_with_inner_dot_admits_nothing (c : ascii) (r file : string) :
  has_char "." r = true \/ has_char "/" r = true ->
  passes_filter (Some (String c r)) file = false.
Proof.
  intros Hbad. unfold passes_filter, splitext_ext.
  destruct (from_last_dot (strip_leading_dots (basename file))) as [e|] eqn:E;
    [|reflexivity].
  apply String.eqb_neq. intros ->.
  destruct (from_last_dot_shape _ _ E) as [r' [Hr' Hdot]].
  injection Hr' as -> ->.
  assert (Hslash : has_char "/" (String "." r') = false).
  { apply (has_char_from_last_dot "/" _ _
             (has_char_strip_leading_dots "/" _ (has_char_basename file)) E). }
  rewrite has_char_cons in Hslash. apply orb_false_iff in Hslash.
  destruct Hslash as [_ Hslash]. destruct Hbad; congruence.
Qed.

Lemma filter_with_inner_dot_admits_nothing_witness :
  passes_filter (Some ".tar.gz") "d/backup.tar.gz" = false.
Proof.
  apply (filter_with_inner_dot_admits_nothing "." "tar.gz" "d/backup.tar.gz").
  left. reflexivity.
Defined.

(** * Bounds of the resume point, and a listing that fails *)

Lemma scan_lines_last (w : world) (f : string) (m : option string)
    (contents : list string) (indices : list nat) (s : state) :
  indices <> [] ->
  exists i, In i indices /\
            curr_dir_dict (final_state (scan_lines w f m contents indices s)) =
            dict_set (curr_dir_dict s) f i.
Proof.
  revert s. induction indices as [|index rest IH]; intros s Hne;
    [contradiction|].
  cbn [scan_lines].
  rewrite final_state_bind, deliver_eq, final_state_bind. unfold modify at 1.
  set (s2 := set_curr _ _).
  assert (H2 : curr_dir_dict s2 = dict_set (curr_dir_dict s) f index).
  { unfold s2. simpl. now rewrite deliver_state_curr. }
  destruct (py_in m (nth index contents "")) as [[|]|]; cbn [final_state].
  - exists index. split; [now left | exact H2].
  - destruct rest as [|j rest].
    + exists index. split; [now left | exact H2].
    + destruct (IH s2) as [i [Hi Hc]]; [discriminate|].
      exists i. split; [now right|].
      rewrite Hc, H2. apply dict_set_set.
  - exists index. split; [now left | exact H2].
Qed.

(** X19: when the start line lies within the file as it was read, the scan
    leaves an entry for the file whose value is at least the start line and
    at most the number of lines read: the scan always advances, and the
    resume point never points beyond the end of the file. *)
Theorem resume_point_within_file (w : world) (f : string) (m : option string)
    (lines : list string) (start_line : nat) (s : state) :
  readlines w f = IoOk lines ->
  start_line <= List.length lines ->
  exists v,
    dict_get (curr_dir_dict
                (final_state (search_for_magic w f start_line m s))) f = Some v /\
    start_line <= v /\ v <= List.length lines.
Proof.
  intros Hread Hstart. unfold search_for_magic. rewrite final_state_bind, Hread.
  unfold lift_io, ret.
  destruct (scan_lines_last w f m ("" :: lines)
              (seq start_line (List.length ("" :: lines) - start_line)) s)
    as [i [Hi Hc]].
  { cbn [List.length].
    destruct (S (List.length lines) - start_line) as [|n] eqn:E; [lia|].
    discriminate. }
  exists i. rewrite Hc, dict_get_set_same. split; [reflexivity|].
  apply in_seq in Hi. cbn [List.length] in Hi. lia.
Qed.

Lemma resume_point_within_file_witness :
  exists v,
    dict_get (curr_dir_dict
                (final_state
                   (search_for_magic world_twice "d/f.txt" 2 magic_foo
                      initial_state))) "d/f.txt" = Some v /\
    2 <= v /\ v <= List.length ["FOO"; "FOO"].
Proof.
  apply (resume_point_within_file world_twice "d/f.txt" magic_foo
           ["FOO"; "FOO"] 2 initial_state).
  - reflexivity.
  - simpl. lia.
Defined.

(** X20: only a directory that does not exist is retried.  When the
    listing fails in any other way (the path is not a directory, permission
    is denied), the catch-all handler logs the error and the loop ends in
    that pass, without scanning, without touching the dictionaries and
    without sleeping. *)
Theorem listing_error_ends_loop (fuel : nat) (ws : nat -> world) (k : nat)
    (path m extension : option string) (interval : Z) (s : state)
    (name : string) :
  exit_program s = false ->
  valid_config path m extension ->
  watch_files_of (ws k) path = IoError name ->
  watch_directory (S fuel) ws k path m extension interval s =
    (emit (LogUnexpected name) (entry_state (ws k) s), Exited).
Proof.
  intros Hexit Hvalid Hls. cbn [watch_directory]. rewrite Hexit.
  unfold watch_iteration, cycle_body.
  unfold bind at 1. rewrite deliver_eq.
  unfold bind at 1. rewrite alert_user_valid by assumption.
  unfold bind at 1. rewrite deliver_eq.
  unfold bind at 1. rewrite Hls. reflexivity.
Qed.

Lemma listing_error_ends_loop_witness :
  watch_directory 3
    (fun _ => mkWorld (fun _ => IoError "NotADirectoryError")
                      (fun _ => IoNotFound) no_signals)
    0 dir_d magic_foo None 1 initial_state =
  (emit (LogUnexpected "NotADirectoryError")
     (entry_state (mkWorld (fun _ => IoError "NotADirectoryError")
                           (fun _ => IoNotFound) no_signals)
        initial_state),
   Exited).
Proof.
  apply (listing_error_ends_loop 2
           (fun _ => mkWorld (fun _ => IoError "NotADirectoryError")
                             (fun _ => IoNotFound) no_signals)
           0 dir_d magic_foo None 1 initial_state "NotADirectoryError").
  - reflexivity.
  - unfold valid_config. simpl. auto.
  - reflexivity.
Defined.

(** * A signal during the sleep (C9) *)



(** A polling interval too large for [time.sleep] ends the loop after the
    first cycle, as a negative one does. *)
Example overflowing_interval_ends_loop :
  let r := watch_directory 4 (fun _ => world_f1) 0 dir_d magic_foo None
             9223372037 initial_state in
  snd r = Exited /\
  trace (fst r) =
    [LogMatch magic_foo "d/f1.txt" 3; LogAdded "d/f1.txt";
     LogDict [("d/f1.txt", 3)]; LogUnexpected "OverflowError"].
Proof. vm_compute. split; reflexivity. Qed.
